(** * intersections_tool: the scripting layer of [lib.py] over a model of its host

    [lib.py] drives a 3D animation package through its scripting interface:
    it creates a pfxToon node that draws intersection lines, builds a render
    layer that hides everything else, captures the viewport to PNG files and
    averages the pixel values of every captured file.

    The development has two parts.

    - [Host] is a model of the scene graph, the render setup and the file
      system the commands act on.  Node handles are node identifiers; a
      plug is a node identifier with an attribute path.  Commands that the
      host rejects raise an exception.
    - [Lib] embeds the functions of [lib.py] one by one over that model, in
      a state-and-exception monad.

    Floating point values of the source (frame numbers, the coverage
    quotient) are carried as the rationals they are, and the operations on
    them round to the nearest binary64 number. *)

From Stdlib Require Import ZArith QArith Ascii String.
From stdpp Require Import base option list gmap strings fin_maps pretty.

Local Open Scope Z_scope.

(** ** Results and the command monad *)

Inductive Exn :=
| ZeroDivisionError
| OSError
| IOError
| TypeError
| RuntimeError
| MayaNodeError.

Inductive Result (A : Type) :=
| Ok (a : A)
| Raise (e : Exn).

Arguments Ok {A} a.
Arguments Raise {A} e.

Module Host.

(** Values written to node attributes. *)
Inductive Value :=
| VInt (z : Z)
| VTriple (x y z : Z)
| VStr (s : string).

Inductive ShapeType := Mesh | PfxToon | Camera | NurbsSurface.

Inductive DependType := UseBackground | ShadingEngine | Lambert.

(** Override type identifiers of [maya.app.renderSetup.model.typeIDs]. *)
Inductive TypeID := materialOverride | shaderOverride | absOverride | relOverride.

(** Kinds of node.  A shape always hangs under a transform; a collection or
    an override records the render layer it belongs to and the node that
    directly owns it; the render setup node is the one that
    [renderSetup.instance()] stands for. *)
Inductive Kind :=
| Transform
| Shape (ty : ShapeType) (parent : nat)
| Depend (ty : DependType)
| RenderLayer
| Collection (layer owner : nat)
| Override (layer owner : nat) (type_id : TypeID)
| RenderSetup.

Record Node := mkNode {
  node_kind : Kind;
  node_name : string;
  node_attrs : gmap string Value;
  node_dyn : gset string
}.

Definition Plug : Type := nat * string.

Record Scene := mkScene {
  nodes : gmap nat Node;
  next_id : nat;
  connections : list (Plug * Plug);
  selection : list nat;
  visible_layer : option nat;
  playback_min : Q;
  playback_max : Q
}.

(** Decoded PNG data as [png.Reader.read] returns it: width, height and the
    rows of channel values. *)
Record Png := mkPng {
  png_width : Z;
  png_height : Z;
  png_rows : list (list Z)
}.

Inductive FsEntry :=
| Dir (listing : list string)
| File (content : Png).

(** What the commands act on: the scene, the files, the directory for
    temporary files, the value of [hash(os.times())], and the paths that
    the operating system refuses to remove (a file in use, a missing
    permission). *)
Record World := mkWorld {
  scene : Scene;
  fs : gmap string FsEntry;
  tempdir : string;
  times_hash : Z;
  fs_busy : gset string
}.

Definition M (A : Type) : Type := World → Result A * World.

Definition ret {A} (a : A) : M A := λ w, (Ok a, w).

Definition raise {A} (e : Exn) : M A := λ w, (Raise e, w).

Definition bind {A B} (m : M A) (k : A → M B) : M B :=
  λ w, match m w with
       | (Ok a, w') => k a w'
       | (Raise e, w') => (Raise e, w')
       end.

Definition get_scene : M Scene := λ w, (Ok (scene w), w).

Definition with_scene (s : Scene) (w : World) : World :=
  mkWorld s (fs w) (tempdir w) (times_hash w) (fs_busy w).

Definition put_scene (s : Scene) : M unit := λ w, (Ok tt, with_scene s w).

Definition get_fs : M (gmap string FsEntry) := λ w, (Ok (fs w), w).

Definition with_fs (f : gmap string FsEntry) (w : World) : World :=
  mkWorld (scene w) f (tempdir w) (times_hash w) (fs_busy w).

Definition put_fs (f : gmap string FsEntry) : M unit := λ w, (Ok tt, with_fs f w).

Declare Scope cmd_scope.
Delimit Scope cmd_scope with cmd.
Bind Scope cmd_scope with M.

Notation "x <- m ;; k" := (bind m (λ x, k))
  (at level 100, m at next level, right associativity) : cmd_scope.
Notation "m ;; k" := (bind m (λ _, k))
  (at level 100, right associativity) : cmd_scope.

Local Open Scope cmd_scope.

(** *** Floating point numbers *)

(** The integer nearest to [n / d], for [0 < d]; a tie goes to the even
    neighbour. *)
Definition round_half_even (n d : Z) : Z :=
  match 2 * (n mod d) ?= d with
  | Lt => n / d
  | Eq => if Z.even (n / d) then n / d else n / d + 1
  | Gt => n / d + 1
  end.

(** The binade of [n / d], for [0 < n] and [0 < d]: the exponent [b] with
    [2 ^ b <= n / d < 2 ^ (b + 1)]. *)
Definition binade (n d : Z) : Z :=
  let k := Z.log2 n - Z.log2 d in
  if (if 0 <=? k then d * 2 ^ k <=? n else d <=? n * 2 ^ (- k)) then k else k - 1.

(** The number with a significand of 53 bits nearest to [n / d], for
    [0 < n] and [0 < d]: [n / d] is brought between [2 ^ 52] and [2 ^ 53],
    rounded to an integer and brought back. *)
Definition nearest53 (n d : Z) : Q :=
  let e := binade n d - 52 in
  if 0 <=? e then inject_Z (round_half_even n (d * 2 ^ e) * 2 ^ e)
  else Qmake (round_half_even (n * 2 ^ (- e)) d) (Z.to_pos (2 ^ (- e))).

(** A Python float is a binary64 number, and an arithmetic operation on
    floats returns the float nearest to the exact result, ties to even.
    [float_round] is that rounding, as a fraction in lowest terms.  The
    exponent is not bounded: the values rounded here are frame numbers and
    quotients of pixel sums, far from the largest and the smallest
    binary64 numbers. *)
Definition float_round (q : Q) : Q :=
  Qred match Qnum (Qred q) with
       | 0 => 0%Q
       | Z.pos n => nearest53 (Z.pos n) (Z.pos (Qden (Qred q)))
       | Z.neg n => (- nearest53 (Z.pos n) (Z.pos (Qden (Qred q))))%Q
       end.

(** Python's [a + b] and [a / b] on floats, for a divisor that is not 0. *)
Definition float_add (a b : Q) : Q := float_round (a + b).

Definition float_div (a b : Q) : Q := float_round (a / b).

(** *** The scene graph *)

Definition set_nodes (f : gmap nat Node → gmap nat Node) (s : Scene) : Scene :=
  mkScene (f (nodes s)) (next_id s) (connections s) (selection s)
          (visible_layer s) (playback_min s) (playback_max s).

Definition set_connections (c : list (Plug * Plug)) (s : Scene) : Scene :=
  mkScene (nodes s) (next_id s) c (selection s) (visible_layer s)
          (playback_min s) (playback_max s).

Definition set_selection (sel : list nat) (s : Scene) : Scene :=
  mkScene (nodes s) (next_id s) (connections s) sel (visible_layer s)
          (playback_min s) (playback_max s).

Definition set_visible_layer (l : option nat) (s : Scene) : Scene :=
  mkScene (nodes s) (next_id s) (connections s) (selection s) l
          (playback_min s) (playback_max s).

(** Node identifiers are never handed out twice: a new node gets an
    identifier above every identifier in use and above [next_id], which
    remembers the identifiers of the nodes that are gone. *)
Definition fresh_id (s : Scene) : nat :=
  next_id s `max` max_list (S <$> (map_to_list (nodes s)).*1).

Definition insert_new (nd : Node) (s : Scene) : Scene :=
  mkScene (<[fresh_id s := nd]> (nodes s)) (S (fresh_id s)) (connections s)
          (selection s) (visible_layer s) (playback_min s) (playback_max s).

Global Instance ShapeType_eq_dec : EqDecision ShapeType.
Proof. solve_decision. Defined.

Global Instance DependType_eq_dec : EqDecision DependType.
Proof. solve_decision. Defined.

Global Instance TypeID_eq_dec : EqDecision TypeID.
Proof. solve_decision. Defined.

Global Instance Kind_eq_dec : EqDecision Kind.
Proof. solve_decision. Defined.

Definition is_shape (ty : ShapeType) (nd : Node) : bool :=
  match node_kind nd with
  | Shape ty' _ => bool_decide (ty' = ty)
  | _ => false
  end.

Definition shape_type_name (ty : ShapeType) : string :=
  match ty with
  | Mesh => "mesh"
  | PfxToon => "pfxToon"
  | Camera => "camera"
  | NurbsSurface => "nurbsSurface"
  end.

(** [pymel.core.ls(type=ty)] for a shape type: the shapes of that type, in
    the order the host enumerates them. *)
Definition shapes_of (ty : ShapeType) (s : Scene) : list nat :=
  (filter (λ kv : nat * Node, is_shape ty kv.2) (map_to_list (nodes s))).*1.

Definition ls (ty : ShapeType) : M (list nat) :=
  s <- get_scene ;; ret (shapes_of ty s).

(** [hasattr(node, a)] for an attribute that no node type declares: true
    exactly when [a] was added to the node with [addAttr].  A handle whose
    node is gone has no attribute. *)
Definition hasattr (n : nat) (a : string) : M bool :=
  s <- get_scene ;;
  ret (match nodes s !! n with
       | Some nd => bool_decide (a ∈ node_dyn nd)
       | None => false
       end).

(** [node.getParent()]. *)
Definition getParent (n : nat) : M (option nat) :=
  s <- get_scene ;;
  match nodes s !! n with
  | Some nd =>
      match node_kind nd with
      | Shape _ p => ret (Some p)
      | _ => ret None
      end
  | None => raise MayaNodeError
  end.

(** [pymel.core.createNode(ty)] for a shape type: the host creates the
    shape under a new transform and selects the shape. *)
Definition createNode (ty : ShapeType) : M nat :=
  s <- get_scene ;;
  let t := fresh_id s in
  let s := insert_new (mkNode Transform (shape_type_name ty +:+ pretty t) ∅ ∅) s in
  let sh := fresh_id s in
  let s := insert_new (mkNode (Shape ty t)
                         (shape_type_name ty +:+ "Shape" +:+ pretty t) ∅ ∅) s in
  put_scene (set_selection [sh] s) ;;
  ret sh.

Definition depend_type_name (ty : DependType) : string :=
  match ty with
  | UseBackground => "useBackground"
  | ShadingEngine => "shadingEngine"
  | Lambert => "lambert"
  end.

(** Creation of a dependency node of type [ty] called [name], which the
    host selects. *)
Definition create_depend (ty : DependType) (name : string) : M nat :=
  s <- get_scene ;;
  let n := fresh_id s in
  put_scene (set_selection [n] (insert_new (mkNode (Depend ty) name ∅ ∅) s)) ;;
  ret n.

(** [pymel.core.shadingNode(ty, asShader=True, name=name)]. *)
Definition shadingNode (ty : DependType) (name : string) : M nat :=
  create_depend ty name.

(** [pymel.core.sets(renderable=True, noSurfaceShader=True, empty=True,
    name=name)]: a new, empty shading group. *)
Definition sets (name : string) : M nat :=
  create_depend ShadingEngine name.

Definition with_attr (a : string) (v : Value) (nd : Node) : Node :=
  mkNode (node_kind nd) (node_name nd) (<[a := v]> (node_attrs nd)) (node_dyn nd).

Definition with_dyn (a : string) (nd : Node) : Node :=
  mkNode (node_kind nd) (node_name nd) (node_attrs nd) ({[a]} ∪ node_dyn nd).

(** [node.attr(a).set(v)]. *)
Definition setAttr (p : Plug) (v : Value) : M unit :=
  s <- get_scene ;;
  match nodes s !! p.1 with
  | Some nd => put_scene (set_nodes (<[p.1 := with_attr p.2 v nd]>) s)
  | None => raise MayaNodeError
  end.

(** [pymel.core.addAttr(longName=a)] names no node: the attribute is added
    to every selected node. *)
Definition addAttr (a : string) : M unit :=
  s <- get_scene ;;
  match selection s with
  | [] => raise RuntimeError
  | sel =>
      put_scene (set_nodes (λ m, foldr (λ n acc, alter (with_dyn a) n acc) m sel) s)
  end.

(** [pymel.core.connectAttr(src, dst)]. *)
Definition connectAttr (src dst : Plug) : M unit :=
  s <- get_scene ;;
  if bool_decide (is_Some (nodes s !! src.1) ∧ is_Some (nodes s !! dst.1))
  then put_scene (set_connections (connections s ++ [(src, dst)]) s)
  else raise MayaNodeError.

(** The nodes that go with node [n] when the host removes it: the shapes
    under a transform, the collections and overrides of a render layer. *)
Definition goes_with (n : nat) (k : nat) (nd : Node) : bool :=
  bool_decide (k = n) ||
  match node_kind nd with
  | Shape _ p => bool_decide (p = n)
  | Collection l _ => bool_decide (l = n)
  | Override l _ _ => bool_decide (l = n)
  | _ => false
  end.

Definition remove_node (n : nat) (s : Scene) : Scene :=
  let m := filter (λ kv : nat * Node, negb (goes_with n kv.1 kv.2)) (nodes s) in
  mkScene m (fresh_id s)
    (filter (λ c : Plug * Plug,
               is_Some (m !! c.1.1) ∧ is_Some (m !! c.2.1)) (connections s))
    (filter (λ k, is_Some (m !! k)) (selection s))
    (match visible_layer s with
     | Some l => if bool_decide (l = n) then None else Some l
     | None => None
     end)
    (playback_min s) (playback_max s).

(** [pymel.core.delete(node)]; [None] is not a node. *)
Definition delete (node : option nat) : M unit :=
  match node with
  | None => raise TypeError
  | Some n =>
      s <- get_scene ;;
      match nodes s !! n with
      | Some _ => put_scene (remove_node n s)
      | None => raise MayaNodeError
      end
  end.

(** The scene graph invariant of the host: every shape hangs under a
    transform of the scene. *)
Definition parent_ok (m : gmap nat Node) (nd : Node) : bool :=
  match node_kind nd with
  | Shape _ p =>
      match m !! p with
      | Some ndp => bool_decide (node_kind ndp = Transform)
      | None => false
      end
  | _ => true
  end.

Definition wf_scene (s : Scene) : bool :=
  forallb (λ kv : nat * Node, parent_ok (nodes s) kv.2) (map_to_list (nodes s)).

(** The same invariant as a statement about lookups. *)
Definition WF (s : Scene) : Prop :=
  ∀ k nd, nodes s !! k = Some nd → parent_ok (nodes s) nd = true.

(** [pymel.core.select(clear=True)]. *)
Definition select_clear : M unit :=
  s <- get_scene ;; put_scene (set_selection [] s).

(** [pymel.core.playbackOptions(min=True, query=True)] and its [max]
    counterpart. *)
Definition playbackOptions_min : M Q :=
  s <- get_scene ;; ret (playback_min s).

Definition playbackOptions_max : M Q :=
  s <- get_scene ;; ret (playback_max s).

(** *** The render setup *)

Definition add_node (nd : Node) : M nat :=
  s <- get_scene ;;
  let n := fresh_id s in
  put_scene (insert_new nd s) ;;
  ret n.

Definition kind_of (n : nat) : M Kind :=
  s <- get_scene ;;
  match nodes s !! n with
  | Some nd => ret (node_kind nd)
  | None => raise MayaNodeError
  end.

(** The render setup node of the scene, if it has one. *)
Definition render_setup_of (s : Scene) : option nat :=
  head (filter (λ kv : nat * Node, bool_decide (node_kind kv.2 = RenderSetup))
               (map_to_list (nodes s))).*1.

(** [renderSetup.instance()]: the render setup of the scene, which is
    created when the scene has none. *)
Definition renderSetup_instance : M nat :=
  s <- get_scene ;;
  match render_setup_of s with
  | Some render_setup => ret render_setup
  | None => add_node (mkNode RenderSetup "renderSetup" ∅ ∅)
  end.

(** [render_setup.createRenderLayer(name)]. *)
Definition createRenderLayer (render_setup : nat) (name : string) : M nat :=
  k <- kind_of render_setup ;;
  match k with
  | RenderSetup => add_node (mkNode RenderLayer name ∅ ∅)
  | _ => raise TypeError
  end.

(** [owner.createCollection(name)] on a render layer or on a collection. *)
Definition createCollection (owner : nat) (name : string) : M nat :=
  k <- kind_of owner ;;
  match k with
  | RenderLayer => add_node (mkNode (Collection owner owner) name ∅ ∅)
  | Collection l _ => add_node (mkNode (Collection l owner) name ∅ ∅)
  | _ => raise TypeError
  end.

(** [collection.getSelector()]: the selector's filter type and pattern
    are kept on the collection itself. *)
Definition getSelector (c : nat) : M nat :=
  k <- kind_of c ;;
  match k with
  | Collection _ _ => ret c
  | _ => raise TypeError
  end.

Definition setFilterType (sel : nat) (v : Z) : M unit :=
  setAttr (sel, "filterType") (VInt v).

Definition setPattern (sel : nat) (p : string) : M unit :=
  setAttr (sel, "pattern") (VStr p).

(** [collection.createOverride(name, type_id)]. *)
Definition createOverride (owner : nat) (name : string) (type_id : TypeID) : M nat :=
  k <- kind_of owner ;;
  match k with
  | Collection l _ => add_node (mkNode (Override l owner type_id) name ∅ ∅)
  | _ => raise TypeError
  end.

(** [render_setup.switchToLayer(layer)]. *)
Definition switchToLayer (render_setup l : nat) : M unit :=
  k <- kind_of render_setup ;;
  match k with
  | RenderSetup =>
      k <- kind_of l ;;
      match k with
      | RenderLayer => s <- get_scene ;; put_scene (set_visible_layer (Some l) s)
      | _ => raise TypeError
      end
  | _ => raise TypeError
  end.

(** [renderLayer.delete(layer)]: the layer goes with its collections and
    overrides. *)
Definition renderLayer_delete (l : nat) : M unit :=
  k <- kind_of l ;;
  match k with
  | RenderLayer => s <- get_scene ;; put_scene (remove_node l s)
  | _ => raise TypeError
  end.

(** *** The file system *)

Fixpoint ends_with_slash (p : string) : bool :=
  match p with
  | EmptyString => false
  | String c EmptyString => bool_decide (c = "/"%char)
  | String _ rest => ends_with_slash rest
  end.

(** [os.path.join(a, b)]. *)
Definition path_join (a b : string) : string :=
  if String.prefix "/" b then b
  else if bool_decide (a = "") || ends_with_slash a then a +:+ b
  else a +:+ "/" +:+ b.

Definition gettempdir : M string := λ w, (Ok (tempdir w), w).

(** [hash(os.times())]. *)
Definition hash_os_times : M Z := λ w, (Ok (times_hash w), w).

(** [os.makedirs(d)] where the parent exists. *)
Definition makedirs (d : string) : M unit :=
  f <- get_fs ;;
  match f !! d with
  | Some _ => raise OSError
  | None => put_fs (<[d := Dir []]> f)
  end.

(** [os.listdir(d)]. *)
Definition listdir (d : string) : M (list string) :=
  f <- get_fs ;;
  match f !! d with
  | Some (Dir names) => ret names
  | _ => raise OSError
  end.

(** [png.Reader(filename=p).read()]. *)
Definition png_read (p : string) : M Png :=
  f <- get_fs ;;
  match f !! p with
  | Some (File img) => ret img
  | _ => raise IOError
  end.

Definition inside (d p : string) : bool :=
  bool_decide (p = d) ||
  String.prefix (if ends_with_slash d then d else d +:+ "/") p.

Definition get_busy : M (gset string) := λ w, (Ok (fs_busy w), w).

(** Whether path [p] outlasts the removal of a tree it belongs to: [p] or
    something there is inside [p] is busy, and a directory that is not
    empty is not removed. *)
Definition stays (f : gmap string FsEntry) (busy : gset string) (p : string)
  : bool :=
  bool_decide (set_Exists (λ q, is_Some (f !! q) ∧ inside p q = true) busy).

(** What is left of the files [f] once the tree at [d] has been removed as
    far as the operating system allows; a directory that stays lists what
    stays. *)
Definition remove_tree (d : string) (busy : gset string)
    (f : gmap string FsEntry) : gmap string FsEntry :=
  map_imap (λ p e,
    if negb (inside d p) then Some e
    else if stays f busy p then
      Some match e with
           | Dir names =>
               Dir (filter (λ name, stays f busy (path_join p name)) names)
           | File _ => e
           end
    else None) f.

(** [rmtree(d, ignore_errors=True)]: what cannot be removed is left
    behind, and nothing is raised. *)
Definition rmtree (d : string) : M unit :=
  f <- get_fs ;;
  busy <- get_busy ;;
  put_fs (remove_tree d busy f).

End Host.

(** ** The functions of [lib.py] *)

Module Lib.

Import Host.
Local Open Scope cmd_scope.

(** Python's [for x in l: body]. *)
Fixpoint for_each {A} (l : list A) (body : A → M unit) : M unit :=
  match l with
  | [] => ret tt
  | x :: rest => body x ;; for_each rest body
  end.

(** Python's [x or default] on an optional argument. *)
Definition py_or {A} (falsy : A → bool) (x : option A) (default : M A) : M A :=
  match x with
  | Some v => if falsy v then default else ret v
  | None => default
  end.

Definition falsy_str (s : string) : bool := bool_decide (s = "").

Definition falsy_num (q : Q) : bool := Qeq_bool q 0.

(** Viewport-capture options, the keyword arguments handed to [capture]. *)
Record CaptureOptions := mkOptions {
  opt_camera : string;
  opt_format : string;
  opt_compression : string;
  opt_width : Z;
  opt_start_frame : option Q;
  opt_end_frame : option Q;
  opt_filename : string;
  opt_viewer : bool;
  opt_viewport_options : list (string * bool);
  opt_displayGradient : bool;
  opt_background : Z * Z * Z
}.

(** What a node handle is in Python: a pymel node or a render setup layer
    object. *)
Inductive Handle :=
| PyNode (n : nat)
| LayerObject (l : nat).

Definition tag : string := "intersections_tool".

(** The [preset] dictionary of [apply_pfxtoon]. *)
Definition preset : gmap string Value :=
  list_to_map
    [ ("displayPercent", VInt 100);
      ("intersectionLines", VInt 1);
      ("selfIntersect", VInt 1);
      ("creaseLines", VInt 0);
      ("profileLines", VInt 0);
      ("intersectionLineWidth", VInt 10);
      ("screenspaceWidth", VInt 1);
      ("intersectionColor", VTriple 1 1 1);
      ("maxPixelWidth", VInt 10) ].

(** The loop that connects the meshes, with its running [index]. *)
Fixpoint connect_meshes (pfxtoon_shape : nat) (meshes : list nat) (index : nat)
  : M unit :=
  match meshes with
  | [] => ret tt
  | mesh :: rest =>
      connectAttr (mesh, "outMesh")
        (pfxtoon_shape, "inputSurface[" +:+ pretty index +:+ "].surface") ;;
      connectAttr (mesh, "worldMatrix[0]")
        (pfxtoon_shape,
         "inputSurface[" +:+ pretty index +:+ "].inputWorldMatrix") ;;
      connect_meshes pfxtoon_shape rest (S index)
  end.

(** The block of [apply_pfxtoon] headed "Find previous pfx and delete to
    make sure settings on pfx is correct". *)
Definition delete_if_tagged (node : nat) : M unit :=
  tagged <- hasattr node tag ;;
  if tagged : bool then (parent <- getParent node ;; delete parent) else ret tt.

Definition delete_previous_pfx : M unit :=
  previous <- ls PfxToon ;;
  for_each previous delete_if_tagged.

(** The rest of [apply_pfxtoon], from "Create pfx" to the [return]. *)
Definition create_pfx (meshes : list nat) : M (option nat * nat) :=
  (* Create pfx. *)
  pfxtoon_shape <- createNode PfxToon ;;
  for_each (map_to_list preset) (λ item,
    setAttr (pfxtoon_shape, item.1) item.2) ;;
  (* Tag pfx for later retrieval. *)
  addAttr tag ;;
  (* Connect all meshes to pfx. *)
  connect_meshes pfxtoon_shape meshes 0 ;;
  parent <- getParent pfxtoon_shape ;;
  ret (parent, pfxtoon_shape).

Definition apply_pfxtoon (meshes : option (list nat)) : M (option nat * nat) :=
  (* Apply to all meshes in scene if no meshes is provided. *)
  meshes <- match meshes with
            | None | Some [] => ls Mesh
            | Some l => ret l
            end ;;
  delete_previous_pfx ;;
  create_pfx meshes.

(** Python's [sum(row)]. *)
Definition sum (row : list Z) : Z := fold_left Z.add row 0.

(** [values_count] starts as the float [0.0] and takes up the integer sum
    of each row; a float holds such a sum exactly as long as it stays
    below [2 ^ 53], and it is carried here as the exact sum.  The final
    division is a division of floats, and is rounded. *)
Definition get_white_coverage (file_path : string) : M Q :=
  data <- png_read file_path ;;
  (* A full white image has 255 in RGBA. *)
  let pixel_count := png_width data * png_height data in
  let values_max := pixel_count * 4 * 255 in
  (* Scan pixels for values. *)
  let values_count :=
    fold_left (λ acc row, acc + inject_Z (sum row))%Q (png_rows data) 0%Q in
  (* Return 0-1 value of white coverage. *)
  if values_max =? 0 then raise ZeroDivisionError
  else ret (float_div values_count (inject_Z values_max)).

Definition create_material_override : M (list Handle) :=
  (* Create useBackground shader. *)
  shader <- shadingNode UseBackground "intersections_background" ;;
  shading_group <- sets "intersections_backgroundSG" ;;
  connectAttr (shader, "outColor") (shading_group, "surfaceShader") ;;
  (* Create render setup layer. *)
  render_setup <- renderSetup_instance ;;
  layer <- createRenderLayer render_setup "intersections" ;;
  all_shapes_collection <- createCollection layer "shapes" ;;
  sel <- getSelector all_shapes_collection ;;
  setFilterType sel 2 ;;
  sel <- getSelector all_shapes_collection ;;
  setPattern sel "*" ;;
  except_pfx_collection <- createCollection all_shapes_collection "except_pfx" ;;
  sel <- getSelector except_pfx_collection ;;
  setFilterType sel 2 ;;
  sel <- getSelector except_pfx_collection ;;
  setPattern sel "*;-pfxToonShape*" ;;
  override <- createOverride except_pfx_collection "material_override"
                             materialOverride ;;
  connectAttr (shading_group, "message") (override, "attrValue") ;;
  switchToLayer render_setup layer ;;
  ret [PyNode shader; PyNode shading_group; LayerObject layer].

Definition delete_node (node : Handle) : M unit :=
  match node with
  | LayerObject l => renderLayer_delete l
  | PyNode n => delete (Some n)
  end.

(** The loop of [get_coverage] over the captured files, with its running
    [frame_count], a float that [frame_count += 1] increments, and the
    list [data] it appends to. *)
Fixpoint coverage_loop (capture_directory : string) (files : list string)
    (frame_count : Q) (data : list (Q * Q)) : M (list (Q * Q)) :=
  match files with
  | [] => ret data
  | f :: rest =>
      c <- get_white_coverage (path_join capture_directory f) ;;
      coverage_loop capture_directory rest (float_add frame_count 1)
                    (data ++ [(frame_count, c)])
  end.

Section WithCapture.

(** The bundled viewport-capture helper [vendor.capture.capture]: it plays
    the frames of the range and writes one image per frame next to
    [opt_filename]. *)
Variable capture : CaptureOptions → M unit.

Definition capture_frames (camera : option string)
    (start_frame end_frame : option Q) : M string :=
  (* Create temporary folder. *)
  tmp <- gettempdir ;;
  h <- hash_os_times ;;
  let temp_directory := path_join tmp ("." +:+ pretty h) in
  makedirs temp_directory ;;
  (* Clear selection so pfx does not get highlighted. *)
  select_clear ;;
  (* Capture viewport. *)
  camera <- py_or falsy_str camera (ret "persp") ;;
  let options :=
    {| opt_camera := camera;
       opt_format := "image";
       opt_compression := "png";
       opt_width := 40;
       opt_start_frame := start_frame;
       opt_end_frame := end_frame;
       opt_filename := path_join temp_directory "temp";
       opt_viewer := false;
       opt_viewport_options :=
         [("strokes", true); ("headsUpDisplay", false); ("imagePlane", false)];
       opt_displayGradient := false;
       opt_background := (0, 0, 0) |} in
  capture options ;;
  ret temp_directory.

Definition get_coverage (camera : option string)
    (start_frame end_frame : option Q) (delete_pfx : bool) : M (list (Q * Q)) :=
  let data := [] in
  camera <- py_or falsy_str camera (ret "persp") ;;
  start_frame <- py_or falsy_num start_frame playbackOptions_min ;;
  end_frame <- py_or falsy_num end_frame playbackOptions_max ;;
  (* Create pfx. *)
  meshes <- ls Mesh ;;
  pfx_pair <- apply_pfxtoon (Some meshes) ;;
  let pfx := pfx_pair.1 in
  (* Create render layer for showing pfx only. *)
  render_layer_nodes <- create_material_override ;;
  (* Get white coverage in frames. *)
  capture_directory <- capture_frames (Some camera) (Some start_frame)
                                      (Some end_frame) ;;
  let frame_count := start_frame in
  files <- listdir capture_directory ;;
  data <- coverage_loop capture_directory files frame_count data ;;
  (* Clean up. *)
  rmtree capture_directory ;;
  for_each render_layer_nodes delete_node ;;
  (if delete_pfx then delete pfx else ret tt) ;;
  ret data.

End WithCapture.

End Lib.

(** ** What the documentation says the functions compute *)

Module Spec.

Import Host.

(** The sum of all channel values over every row of the decoded data. *)
Definition channel_total (img : Png) : Z :=
  foldr Z.add 0 (concat (png_rows img)).

(** The pixels of a row of RGBA data: groups of four channel values. *)
Fixpoint pixels (row : list Z) : list (list Z) :=
  match row with
  | r :: g :: b :: a :: rest => [r; g; b; a] :: pixels rest
  | _ => []
  end.

(** A pixel is non-black when at least one of its channels is non-zero. *)
Definition nonblack (px : list Z) : bool :=
  existsb (λ v, negb (v =? 0)) px.

Definition nonblack_count (img : Png) : nat :=
  length (filter (λ px, nonblack px) (concat (pixels <$> png_rows img))).

(** The fraction of non-black pixels, as the docstring of
    [get_white_coverage] words its result. *)
Definition nonblack_fraction (img : Png) : Q :=
  inject_Z (Z.of_nat (nonblack_count img))
  / inject_Z (png_width img * png_height img).

(** Decoded 8-bit RGBA data: [height] rows of [4 * width] values, each
    between 0 and 255. *)
Definition row_ok (width : Z) (row : list Z) : bool :=
  (Z.of_nat (length row) =? 4 * width)
  && forallb (λ v, (0 <=? v) && (v <=? 255)) row.

Definition rgba8 (img : Png) : bool :=
  (0 <=? png_width img) && (0 <=? png_height img)
  && (Z.of_nat (length (png_rows img)) =? png_height img)
  && forallb (row_ok (png_width img)) (png_rows img).

Definition all_zero (img : Png) : Prop :=
  Forall (Forall (λ v, v = 0)) (png_rows img).

(** A pfxToon shape that carries the tag of the tool. *)
Definition tagged_pfx (nd : Node) : bool :=
  is_shape PfxToon nd && bool_decide (Lib.tag ∈ node_dyn nd).

(** Slot [index] of the [inputSurface] array of a pfxToon shape. *)
Definition surface_plug (pfx_shape index : nat) : Plug :=
  (pfx_shape, "inputSurface[" +:+ pretty index +:+ "].surface").

Definition matrix_plug (pfx_shape index : nat) : Plug :=
  (pfx_shape, "inputSurface[" +:+ pretty index +:+ "].inputWorldMatrix").

(** The connections of a list of meshes to consecutive slots, from slot
    [index] on. *)
Fixpoint mesh_connections (pfx_shape : nat) (meshes : list nat) (index : nat)
  : list (Plug * Plug) :=
  match meshes with
  | [] => []
  | m :: rest =>
      ((m, "outMesh"), surface_plug pfx_shape index)
      :: ((m, "worldMatrix[0]"), matrix_plug pfx_shape index)
      :: mesh_connections pfx_shape rest (S index)
  end.

(** The nodes that [createNode] and the settings of [apply_pfxtoon] make
    of a fresh identifier [t]: the transform and, under it, the shape with
    the preset values and the tag. *)
Definition pfx_transform_node (t : nat) : Node :=
  mkNode Transform ("pfxToon" +:+ pretty t) ∅ ∅.

Definition pfx_shape_node (t : nat) : Node :=
  mkNode (Shape PfxToon t) ("pfxToonShape" +:+ pretty t) Lib.preset {[Lib.tag]}.

(** The scene with a new pfx connected to [meshes]. *)
Definition created_pfx (meshes : list nat) (s : Scene) : Scene :=
  let t := fresh_id s in
  mkScene (<[S t := pfx_shape_node t]> (<[t := pfx_transform_node t]> (nodes s)))
          (S (S t))
          (connections s ++ mesh_connections (S t) meshes 0)
          [S t] (visible_layer s) (playback_min s) (playback_max s).

(** Node [k] goes with the transform of a tagged shape of the list [l]. *)
Definition removed_with (l : list nat) (s : Scene) (k : nat) (nd : Node) : Prop :=
  ∃ n ndn ty p, n ∈ l ∧ nodes s !! n = Some ndn ∧ Lib.tag ∈ node_dyn ndn ∧
                node_kind ndn = Shape ty p ∧ goes_with p k nd = true.

(** The selector filter type 2 of the render setup is the shapes filter. *)
Definition filter_shapes : Z := 2.

(** The scene with the shader and its shading group: with [n] the first
    free identifier, the shader [n] and the shading group [n + 1], which
    is selected, and the connection from the one to the other. *)
Definition shaded_scene (s : Scene) : Scene :=
  let n := fresh_id s in
  mkScene
    (<[S n := mkNode (Depend ShadingEngine) "intersections_backgroundSG" ∅ ∅]>
     (<[n := mkNode (Depend UseBackground) "intersections_background" ∅ ∅]>
      (nodes s)))
    (S (S n))
    (connections s ++ [((n, "outColor"), (S n, "surfaceShader"))])
    [S n] (visible_layer s) (playback_min s) (playback_max s).

(** The scene with the render setup node that [renderSetup.instance()]
    creates when there is none, and the identifier of that node. *)
Definition with_render_setup (s : Scene) : Scene :=
  match render_setup_of s with
  | Some _ => s
  | None => insert_new (mkNode RenderSetup "renderSetup" ∅ ∅) s
  end.

Definition render_setup_id (s : Scene) : nat :=
  match render_setup_of s with
  | Some render_setup => render_setup
  | None => fresh_id s
  end.

(** The scene with the render layer: with [l] the first free identifier,
    the layer [l], its collection of all shapes [l + 1], the nested
    collection [l + 2] that leaves the pfxToon shapes out, and the
    material override [l + 3] on the nested collection, which takes its
    value from the shading group [sg]; the layer is the visible one. *)
Definition layered_scene (sg : nat) (s : Scene) : Scene :=
  let layer := fresh_id s in
  let shapes := S layer in
  let except_pfx := S (S layer) in
  let override := S (S (S layer)) in
  mkScene
    (<[override := mkNode (Override layer except_pfx materialOverride)
                          "material_override" ∅ ∅]>
     (<[except_pfx :=
          mkNode (Collection layer shapes) "except_pfx"
                 (<["pattern" := VStr "*;-pfxToonShape*"]>
                    (<["filterType" := VInt filter_shapes]> ∅)) ∅]>
      (<[shapes :=
           mkNode (Collection layer layer) "shapes"
                  (<["pattern" := VStr "*"]>
                     (<["filterType" := VInt filter_shapes]> ∅)) ∅]>
       (<[layer := mkNode RenderLayer "intersections" ∅ ∅]> (nodes s)))))
    (S override)
    (connections s ++ [((sg, "message"), (override, "attrValue"))])
    (selection s) (Some layer) (playback_min s) (playback_max s).

(** The scene that [create_material_override] makes of [s], and the
    handles it returns: the shader, the shading group and the layer. *)
Definition override_scene (s : Scene) : Scene :=
  layered_scene (S (fresh_id s)) (with_render_setup (shaded_scene s)).

Definition override_handles (s : Scene) : list Lib.Handle :=
  [ Lib.PyNode (fresh_id s); Lib.PyNode (S (fresh_id s));
    Lib.LayerObject (fresh_id (with_render_setup (shaded_scene s))) ].

(** The meshes [apply_pfxtoon] works on: the given ones, or all the meshes
    of the scene when the argument is [None] or empty. *)
Definition effective_meshes (meshes : option (list nat)) (s : Scene) : list nat :=
  match meshes with
  | None | Some [] => shapes_of Mesh s
  | Some l => l
  end.

(** Handle [m] is live and goes with no transform of an earlier pfx. *)
Definition survivor (s : Scene) (m : nat) : bool :=
  match nodes s !! m with
  | Some nd =>
      negb (existsb
              (λ n, match nodes s !! n with
                    | Some ndn =>
                        bool_decide (Lib.tag ∈ node_dyn ndn)
                        && match node_kind ndn with
                           | Shape _ p => goes_with p m nd
                           | _ => false
                           end
                    | None => false
                    end)
              (shapes_of PfxToon s))
  | None => false
  end.

(** Every handle of [l] that is live in [s] is a shape. *)
Definition shape_handles (l : list nat) (s : Scene) : Prop :=
  ∀ n nd, n ∈ l → nodes s !! n = Some nd → ∃ ty p, node_kind nd = Shape ty p.

(** What the loop over the earlier pfx shapes leaves of scene [s]. *)
Definition previous_deleted (l : list nat) (s s' : Scene) : Prop :=
  WF s' ∧ nodes s' ⊆ nodes s ∧ fresh_id s' = fresh_id s ∧
  (∀ n nd ty p, n ∈ l → nodes s !! n = Some nd →
     Lib.tag ∈ node_dyn nd → node_kind nd = Shape ty p →
     nodes s' !! n = None ∧ nodes s' !! p = None) ∧
  (∀ k nd, nodes s !! k = Some nd → ¬ removed_with l s k nd →
     nodes s' !! k = Some nd).

(** Python's [x or default] on an optional argument, as a value. *)
Definition resolve_camera (camera : option string) : string :=
  match camera with
  | Some c => if Lib.falsy_str c then "persp" else c
  | None => "persp"
  end.

Definition resolve_frame (frame : option Q) (default : Q) : Q :=
  match frame with
  | Some q => if Lib.falsy_num q then default else q
  | None => default
  end.

(** The frame number after [i] rounds of [frame_count += 1] from
    [start]. *)
Definition frame_after (i : nat) (start : Q) : Q :=
  Nat.iter i (λ f, float_add f 1) start.

(** The directory [capture_frames] creates. *)
Definition temp_directory (w : World) : string :=
  path_join (tempdir w) ("." +:+ pretty (times_hash w)).

(** The world the capture helper is run on: the directory is there and
    empty, and nothing is selected. *)
Definition ready_world (w : World) : World :=
  with_scene (set_selection [] (scene w))
    (with_fs (<[temp_directory w := Dir []]> (fs w)) w).

(** Every pixel of the row is fully white, alpha included. *)
Definition white_row (row : list Z) : Prop := Forall (λ v, v = 255) row.

(** Every pixel of the row is black and opaque. *)
Fixpoint opaque_black_row (row : list Z) : Prop :=
  match row with
  | [] => True
  | r :: g :: b :: a :: rest =>
      r = 0 ∧ g = 0 ∧ b = 0 ∧ a = 255 ∧ opaque_black_row rest
  | _ => False
  end.

(** The node a handle stands for. *)
Definition handle_id (h : Lib.Handle) : nat :=
  match h with
  | Lib.PyNode n => n
  | Lib.LayerObject l => l
  end.

(** The scene once the nodes of the given handles have been deleted one
    after the other, and the pfx too when [delete_pfx] is set. *)
Definition cleaned_scene (handles : list Lib.Handle) (pfx : option nat)
    (delete_pfx : bool) (s : Scene) : Scene :=
  let s := foldl (λ s h, remove_node (handle_id h) s) s handles in
  match pfx with
  | Some t => if delete_pfx then remove_node t s else s
  | None => s
  end.

End Spec.

(** ** A small scene and a capture helper to run the functions on *)

Module Demo.

Import Host Lib.
Local Open Scope cmd_scope.

(** [os.path.dirname]. *)
Fixpoint has_slash (p : string) : bool :=
  match p with
  | EmptyString => false
  | String c rest => bool_decide (c = "/"%char) || has_slash rest
  end.

Fixpoint dirname (p : string) : string :=
  match p with
  | EmptyString => EmptyString
  | String c rest => if has_slash rest then String c (dirname rest) else EmptyString
  end.

(** A capture helper that writes the given frames, each under the file name
    prefix followed by its suffix, and leaves the scene alone. *)
Definition write_frames (frames : list (string * Png)) (o : CaptureOptions)
  : M unit :=
  f <- get_fs ;;
  let d := dirname (opt_filename o) in
  put_fs (<[d := Dir ((λ fr : string * Png, "temp" +:+ fr.1) <$> frames)]>
            (foldr (λ fr acc, <[opt_filename o +:+ fr.1 := File fr.2]> acc)
                   f frames)).

Definition red_pixel : Png := mkPng 1 1 [[255; 0; 0; 255]].

Definition black_white : Png :=
  mkPng 2 1 [[0; 0; 0; 0; 255; 255; 255; 255]].

Definition no_pixels : Png := mkPng 0 0 [].

(** Two rows of three pixels, one of them white: the quotient, one sixth,
    is not a binary64 number. *)
Definition sparse_image : Png :=
  mkPng 3 2 [[255; 255; 255; 255; 0; 0; 0; 0; 0; 0; 0; 0];
             [0; 0; 0; 0; 0; 0; 0; 0; 0; 0; 0; 0]].

Definition two_frames : list (string * Png) :=
  [(".0001.png", black_white); (".0002.png", red_pixel)].

(** A scene with one mesh under a transform and a pfx left by an earlier
    run. *)
Definition demo_nodes : gmap nat Node :=
  list_to_map
    [ (0%nat, mkNode Transform "pSphere1" ∅ ∅);
      (1%nat, mkNode (Shape Mesh 0) "pSphereShape1" ∅ ∅);
      (2%nat, mkNode Transform "pfxToon1" ∅ ∅);
      (3%nat, mkNode (Shape PfxToon 2) "pfxToonShape1" ∅ {[tag]}) ].

Definition demo_scene : Scene :=
  mkScene demo_nodes 4 [((1%nat, "outMesh"), (3%nat, "inputSurface[0].surface"))]
          [] None 1 24.

Definition demo_world : World :=
  mkWorld demo_scene {["/tmp" := Dir []]} "/tmp" 42 ∅.

(** Worlds holding a single image file. *)
Definition red_world : World :=
  mkWorld demo_scene {["/tmp/red.png" := File red_pixel]} "/tmp" 42 ∅.

Definition bw_world : World :=
  mkWorld demo_scene {["/tmp/bw.png" := File black_white]} "/tmp" 42 ∅.

Definition sparse_world : World :=
  mkWorld demo_scene {["/tmp/sparse.png" := File sparse_image]} "/tmp" 42 ∅.

(** A run of [get_coverage] over two captured frames, and what it
    returns. *)
Definition demo_run (delete_pfx : bool) : Result (list (Q * Q)) * World :=
  get_coverage (write_frames two_frames) None None None delete_pfx demo_world.

Definition demo_data : list (Q * Q) := [(1, 1 # 2); (2, 1 # 2)]%Q.

(** A world in which the operating system holds the second frame back,
    and the same run on it. *)
Definition held_world : World :=
  mkWorld demo_scene {["/tmp" := Dir []]} "/tmp" 42 {["/tmp/.42/temp.0002.png"]}.

Definition held_run : Result (list (Q * Q)) * World :=
  get_coverage (write_frames two_frames) None None None true held_world.

(** A world in which the temporary directory is already there. *)
Definition busy_world : World :=
  mkWorld demo_scene {["/tmp" := Dir []; "/tmp/.42" := Dir []]} "/tmp" 42 ∅.

(** A fully white image and an opaque black one, each in a world of its
    own. *)
Definition white_image : Png :=
  mkPng 2 1 [[255; 255; 255; 255; 255; 255; 255; 255]].

Definition opaque_black_image : Png :=
  mkPng 1 2 [[0; 0; 0; 255]; [0; 0; 0; 255]].

Definition white_world : World :=
  mkWorld demo_scene {["/tmp/white.png" := File white_image]} "/tmp" 42 ∅.

Definition black_world : World :=
  mkWorld demo_scene {["/tmp/black.png" := File opaque_black_image]} "/tmp" 42 ∅.

End Demo.

(** * Properties *)

Import Host Lib Spec Demo.

(** ** The command monad *)

Section Monad.

Context {A B : Type}.

Lemma bind_Ok (m : M A) (k : A → M B) w a w1 :
  m w = (Ok a, w1) → bind m k w = k a w1.
Proof. intros H. unfold bind. by rewrite H. Qed.

Lemma bind_Raise (m : M A) (k : A → M B) w e w1 :
  m w = (Raise e, w1) → bind m k w = (Raise e, w1).
Proof. intros H. unfold bind. by rewrite H. Qed.

Lemma bind_Ok_inv (m : M A) (k : A → M B) w b w' :
  bind m k w = (Ok b, w') →
  ∃ a w1, m w = (Ok a, w1) ∧ k a w1 = (Ok b, w').
Proof.
  unfold bind. destruct (m w) as [[a|e] w1]; [eauto | done].
Qed.

End Monad.

(** Splits a run [bind m k w = (Ok b, w')] into the run of [m] and the run of
    the continuation. *)
Ltac bind_inv H a w1 Hm :=
  apply bind_Ok_inv in H as (a & w1 & Hm & H).

(** ** Floating point rounding *)

Section FloatRound.

Lemma round_half_even_bounds (n d : Z) :
  0 < d → n / d ≤ round_half_even n d ≤ n / d + 1.
Proof.
  intros Hd. unfold round_half_even.
  destruct (2 * (n mod d) ?= d); [destruct (Z.even (n / d))|..]; lia.
Qed.

Lemma round_half_even_exact (n : Z) : round_half_even n 1 = n.
Proof.
  unfold round_half_even. rewrite Z.mod_1_r, Z.div_1_r. reflexivity.
Qed.

Lemma round_half_even_pos (n d : Z) : 0 < d → d ≤ n → 1 ≤ round_half_even n d.
Proof.
  intros Hd Hn. pose proof (round_half_even_bounds n d Hd).
  assert (1 ≤ n / d) by (apply Z.div_le_lower_bound; lia). lia.
Qed.

Lemma round_half_even_below (n d b : Z) :
  0 < d → n < d * b → round_half_even n d ≤ b.
Proof.
  intros Hd Hn. pose proof (round_half_even_bounds n d Hd).
  assert (n / d < b) by (apply Z.div_lt_upper_bound; lia). lia.
Qed.

(** The rounded integer is within one half of the fraction. *)
Lemma round_half_even_error (n d : Z) :
  0 < d → Z.abs (2 * (d * round_half_even n d - n)) ≤ d.
Proof.
  intros Hd. unfold round_half_even.
  pose proof (Z.div_mod n d ltac:(lia)) as E.
  pose proof (Z.mod_pos_bound n d Hd) as Hm.
  destruct (Z.compare_spec (2 * (n mod d)) d);
    [destruct (Z.even (n / d))|..]; nia.
Qed.

(** [2 ^ binade n d <= n / d], cleared of fractions. *)
Lemma binade_lower (n d : Z) :
  0 < n → 0 < d →
  if 0 <=? binade n d then d * 2 ^ binade n d ≤ n
  else d ≤ n * 2 ^ (- binade n d).
Proof.
  intros Hn Hd. unfold binade.
  pose proof (Z.log2_spec n Hn) as [Hn1 Hn2].
  pose proof (Z.log2_spec d Hd) as [Hd1 Hd2].
  pose proof (Z.log2_nonneg n) as Hln. pose proof (Z.log2_nonneg d) as Hld.
  set (a := Z.log2 n) in *. set (b := Z.log2 d) in *.
  destruct (Z.leb_spec 0 (a - b)) as [Hk|Hk].
  - destruct (Z.leb_spec (d * 2 ^ (a - b)) n) as [Ht|Ht].
    + destruct (Z.leb_spec 0 (a - b)); [done | lia].
    + destruct (Z.leb_spec 0 (a - b - 1)) as [Hk1|Hk1].
      * assert (2 ^ a = 2 ^ (b + 1) * 2 ^ (a - b - 1)) as E.
        { rewrite <- Z.pow_add_r by lia. f_equal. lia. }
        assert (0 < 2 ^ (a - b - 1)) by (apply Z.pow_pos_nonneg; lia).
        nia.
      * assert (a - b = 0) as E by lia. rewrite E in *.
        replace (- (0 - 1)) with 1 by lia. change (2 ^ 1) with 2.
        replace a with b in * by lia. rewrite Z.pow_succ_r in Hd2 by lia. lia.
  - destruct (Z.leb_spec d (n * 2 ^ (- (a - b)))) as [Ht|Ht].
    + destruct (Z.leb_spec 0 (a - b)); [lia | done].
    + destruct (Z.leb_spec 0 (a - b - 1)); [lia|].
      assert (2 ^ (b + 1) = 2 ^ a * 2 ^ (- (a - b - 1))) as E.
      { rewrite <- Z.pow_add_r by lia. f_equal. lia. }
      assert (0 < 2 ^ (- (a - b - 1))) by (apply Z.pow_pos_nonneg; lia).
      nia.
Qed.

(** [n / d < 2 ^ (binade n d + 1)], cleared of fractions. *)
Lemma binade_upper (n d : Z) :
  0 < n → 0 < d →
  if 0 <=? binade n d + 1 then n < d * 2 ^ (binade n d + 1)
  else n * 2 ^ (- (binade n d + 1)) < d.
Proof.
  intros Hn Hd. unfold binade.
  pose proof (Z.log2_spec n Hn) as [Hn1 Hn2].
  pose proof (Z.log2_spec d Hd) as [Hd1 Hd2].
  pose proof (Z.log2_nonneg n) as Hln. pose proof (Z.log2_nonneg d) as Hld.
  set (a := Z.log2 n) in *. set (b := Z.log2 d) in *.
  replace (Z.succ a) with (a + 1) in * by lia.
  replace (Z.succ b) with (b + 1) in * by lia.
  destruct (Z.leb_spec 0 (a - b)) as [Hk|Hk].
  - destruct (Z.leb_spec (d * 2 ^ (a - b)) n) as [Ht|Ht].
    + destruct (Z.leb_spec 0 (a - b + 1)); [|lia].
      assert (2 ^ (a + 1) = 2 ^ b * 2 ^ (a - b + 1)) as E.
      { rewrite <- Z.pow_add_r by lia. f_equal. lia. }
      assert (0 < 2 ^ (a - b + 1)) by (apply Z.pow_pos_nonneg; lia).
      nia.
    + replace (a - b - 1 + 1) with (a - b) by lia.
      destruct (Z.leb_spec 0 (a - b)); lia.
  - destruct (Z.leb_spec d (n * 2 ^ (- (a - b)))) as [Ht|Ht].
    + destruct (Z.leb_spec 0 (a - b + 1)) as [Hk1|Hk1].
      * assert (a - b = -1) as E by lia. rewrite E in *.
        change (-1 + 1) with 0. change (2 ^ 0) with 1.
        replace b with (a + 1) in * by lia. lia.
      * assert (2 ^ b = 2 ^ (a + 1) * 2 ^ (- (a - b + 1))) as E.
        { rewrite <- Z.pow_add_r by lia. f_equal. lia. }
        assert (0 < 2 ^ (- (a - b + 1))) by (apply Z.pow_pos_nonneg; lia).
        nia.
    + replace (a - b - 1 + 1) with (a - b) by lia.
      destruct (Z.leb_spec 0 (a - b)); lia.
Qed.

Lemma binade_integer (z : Z) : 0 < z → binade z 1 = Z.log2 z.
Proof.
  intros Hz. unfold binade. change (Z.log2 1) with 0. rewrite Z.sub_0_r.
  pose proof (Z.log2_nonneg z). pose proof (Z.log2_spec z Hz) as [Hlo _].
  destruct (Z.leb_spec 0 (Z.log2 z)); [|lia].
  destruct (Z.leb_spec (1 * 2 ^ Z.log2 z) z); [done | lia].
Qed.

Lemma nearest53_pos (n d : Z) : 0 < n → 0 < d → (0 < nearest53 n d)%Q.
Proof.
  intros Hn Hd. unfold nearest53.
  pose proof (binade_lower n d Hn Hd) as Hlo.
  set (b := binade n d) in *.
  destruct (Z.leb_spec 0 (b - 52)) as [He|He].
  - destruct (Z.leb_spec 0 b); [|lia].
    assert (0 < 2 ^ (b - 52)) by (apply Z.pow_pos_nonneg; lia).
    assert (2 ^ b = 2 ^ (b - 52) * 2 ^ 52) as E.
    { rewrite <- Z.pow_add_r by lia. f_equal. lia. }
    assert (1 ≤ round_half_even n (d * 2 ^ (b - 52))).
    { apply round_half_even_pos; nia. }
    change 0%Q with (inject_Z 0). rewrite <- Zlt_Qlt. nia.
  - assert (0 < 2 ^ (- (b - 52))) by (apply Z.pow_pos_nonneg; lia).
    assert (1 ≤ round_half_even (n * 2 ^ (- (b - 52))) d).
    { apply round_half_even_pos; [done|].
      destruct (Z.leb_spec 0 b).
      - assert (0 < 2 ^ b) by (apply Z.pow_pos_nonneg; lia). nia.
      - assert (2 ^ (- (b - 52)) = 2 ^ (- b) * 2 ^ 52) as E.
        { rewrite <- Z.pow_add_r by lia. f_equal. lia. }
        nia. }
    unfold Qlt. simpl. lia.
Qed.

Lemma nearest53_le_1 (n d : Z) : 0 < n → n < d → (nearest53 n d <= 1)%Q.
Proof.
  intros Hn Hlt. assert (0 < d) as Hd by lia. unfold nearest53.
  pose proof (binade_lower n d Hn Hd) as Hlo.
  pose proof (binade_upper n d Hn Hd) as Hup.
  set (b := binade n d) in *.
  assert (b < 0) as Hb.
  { destruct (Z.leb_spec 0 b); [|done].
    assert (0 < 2 ^ b) by (apply Z.pow_pos_nonneg; lia). nia. }
  destruct (Z.leb_spec 0 b); [lia|].
  destruct (Z.leb_spec 0 (b - 52)); [lia|].
  assert (0 < 2 ^ (- (b - 52))) as Hp by (apply Z.pow_pos_nonneg; lia).
  assert (round_half_even (n * 2 ^ (- (b - 52))) d ≤ 2 ^ (- (b - 52))).
  { apply round_half_even_below; [done|].
    destruct (Z.leb_spec 0 (b + 1)).
    - assert (b = -1) as -> by lia. simpl in Hup |- *. lia.
    - assert (2 ^ (- (b - 52)) = 2 ^ (- (b + 1)) * 2 ^ 53) as E.
      { rewrite <- Z.pow_add_r by lia. f_equal. lia. }
      assert (0 < 2 ^ (- (b + 1))) by (apply Z.pow_pos_nonneg; lia).
      assert (2 ^ (- (b + 1)) ≤ 2 ^ (- (b - 52))).
      { apply Z.pow_le_mono_r; lia. }
      nia. }
  unfold Qle. simpl. rewrite Z2Pos.id by done. lia.
Qed.

Lemma nearest53_integer (z : Z) :
  0 < z < 2 ^ 53 → (nearest53 z 1 == inject_Z z)%Q.
Proof.
  intros [Hz Hlt]. unfold nearest53. rewrite binade_integer by done.
  assert (Z.log2 z < 53) as Hl by (apply Z.log2_lt_pow2; lia).
  destruct (Z.leb_spec 0 (Z.log2 z - 52)) as [He|He].
  - assert (Z.log2 z - 52 = 0) as -> by lia.
    change (2 ^ 0) with 1. rewrite Z.mul_1_r, round_half_even_exact. reflexivity.
  - rewrite round_half_even_exact.
    assert (0 < 2 ^ (- (Z.log2 z - 52))) by (apply Z.pow_pos_nonneg; lia).
    unfold Qeq. simpl. rewrite Z2Pos.id by done. lia.
Qed.

(** The relative error of the rounding is at most [2 ^ -53]. *)
Lemma nearest53_error (n d : positive) :
  ((Z.pos n # d) * (1 - (1 # 2 ^ 53)) <= nearest53 (Z.pos n) (Z.pos d)
   <= (Z.pos n # d) * (1 + (1 # 2 ^ 53)))%Q.
Proof.
  unfold nearest53.
  pose proof (binade_lower (Z.pos n) (Z.pos d) ltac:(lia) ltac:(lia)) as Hlo.
  set (b := binade (Z.pos n) (Z.pos d)) in *.
  assert (Z.pos (2 ^ 53) = 2 * 2 ^ 52) as HP by reflexivity.
  assert (0 < 2 ^ 52) as H52 by reflexivity.
  destruct (Z.leb_spec 0 (b - 52)) as [He|He].
  - destruct (Z.leb_spec 0 b); [|lia].
    assert (0 < 2 ^ (b - 52)) by (apply Z.pow_pos_nonneg; lia).
    assert (2 ^ b = 2 ^ (b - 52) * 2 ^ 52) as E.
    { rewrite <- Z.pow_add_r by lia. f_equal. lia. }
    pose proof (round_half_even_error (Z.pos n) (Z.pos d * 2 ^ (b - 52))
                  ltac:(nia)) as Herr.
    set (m := round_half_even _ _) in *.
    unfold Qle, Qmult, Qplus, Qminus, Qopp, inject_Z. simpl Qnum. simpl Qden.
    rewrite !Pos2Z.inj_mul, HP.
    assert (Z.pos d * 2 ^ (b - 52) * 2 ^ 52 ≤ Z.pos n) as Hlo' by nia.
    clearbody m. generalize dependent (2 ^ (b - 52)). generalize dependent (2 ^ 52).
    intros P _ HP' T. intros. split; nia.
  - assert (0 < 2 ^ (- (b - 52))) as Hpos by (apply Z.pow_pos_nonneg; lia).
    pose proof (round_half_even_error (Z.pos n * 2 ^ (- (b - 52))) (Z.pos d)
                  ltac:(lia)) as Herr.
    set (m := round_half_even _ _) in *.
    assert (Z.pos d * 2 ^ 52 ≤ Z.pos n * 2 ^ (- (b - 52))) as Hlo'.
    { destruct (Z.leb_spec 0 b).
      - assert (2 ^ 52 = 2 ^ b * 2 ^ (- (b - 52))) as E.
        { rewrite <- Z.pow_add_r by lia. f_equal. lia. }
        assert (0 < 2 ^ b) by (apply Z.pow_pos_nonneg; lia). nia.
      - assert (2 ^ (- (b - 52)) = 2 ^ (- b) * 2 ^ 52) as E.
        { rewrite <- Z.pow_add_r by lia. f_equal. lia. }
        nia. }
    unfold Qle, Qmult, Qplus, Qminus, Qopp, inject_Z. simpl Qnum. simpl Qden.
    rewrite !Pos2Z.inj_mul, HP, Z2Pos.id by done.
    clearbody m. generalize dependent (2 ^ (- (b - 52))). generalize dependent (2 ^ 52).
    intros P _ HP' T. intros. split; nia.
Qed.

Lemma Qred_inject_Z (z : Z) : Qred (inject_Z z) = inject_Z z.
Proof.
  pose proof (Qred_correct (inject_Z z)) as H.
  pose proof (gcd_Qred (inject_Z z)) as Hg.
  destruct (Qred (inject_Z z)) as [n d]. unfold Qeq, inject_Z in *. simpl in *.
  assert (n = z * Z.pos d) as -> by lia.
  rewrite Z.mul_comm, Z.gcd_comm, Z.gcd_mul_diag_l in Hg by lia.
  injection Hg as ->. f_equal. lia.
Qed.

Lemma Qred_num_sign (q : Q) : 0 < Qnum (Qred q) ↔ 0 < Qnum q.
Proof.
  pose proof (Qred_correct q) as H. unfold Qeq in H.
  destruct (Qred q) as [n d], q as [n' d']; simpl in *. nia.
Qed.

(** Rounding depends on the value of the fraction only. *)
Lemma float_round_proper (q q' : Q) : (q == q')%Q → float_round q = float_round q'.
Proof. intros H. unfold float_round. by rewrite (Qred_complete q q' H). Qed.

Lemma float_round_pos (q : Q) : (0 < q)%Q → (0 < float_round q)%Q.
Proof.
  intros Hq. unfold float_round. rewrite Qred_correct.
  assert (0 < Qnum (Qred q)) as Hn.
  { apply Qred_num_sign. unfold Qlt in Hq. simpl in Hq. lia. }
  destruct (Qnum (Qred q)) as [|n|n]; [lia| |lia].
  by apply nearest53_pos.
Qed.

Lemma float_round_zero (q : Q) : (0 <= q)%Q → (float_round q == 0)%Q ↔ (q == 0)%Q.
Proof.
  intros Hq. split.
  - intros H0. destruct (Qlt_le_dec 0 q) as [Hpos|Hle]; [|by apply Qle_antisym].
    apply float_round_pos in Hpos. rewrite H0 in Hpos. by apply Qlt_irrefl in Hpos.
  - intros H0. by rewrite (float_round_proper q 0 H0).
Qed.

Lemma float_round_unit (q : Q) : (0 <= q <= 1)%Q → (0 <= float_round q <= 1)%Q.
Proof.
  intros [H0 H1]. split.
  - destruct (Qlt_le_dec 0 q) as [Hpos|Hle].
    + by apply Qlt_le_weak, float_round_pos.
    + rewrite (float_round_proper q 0); [done|]. by apply Qle_antisym.
  - destruct (Qlt_le_dec q 1) as [Hlt|Hge].
    + destruct (Qlt_le_dec 0 q) as [Hpos|Hle].
      * unfold float_round. rewrite Qred_correct.
        pose proof (Qred_correct q) as Hred.
        assert (0 < Qred q)%Q as Hp by by rewrite Hred.
        assert (Qred q < 1)%Q as Hl by by rewrite Hred.
        unfold Qlt in Hp, Hl. simpl in Hp, Hl.
        destruct (Qnum (Qred q)) as [|n|n]; [done| |lia].
        apply nearest53_le_1; lia.
      * rewrite (float_round_proper q 0); [done|]. by apply Qle_antisym.
    + rewrite (float_round_proper q 1); [done|]. by apply Qle_antisym.
Qed.

(** Integers below [2 ^ 53] are binary64 numbers. *)
Lemma float_round_integer (z : Z) :
  - 2 ^ 53 < z < 2 ^ 53 → (float_round (inject_Z z) == inject_Z z)%Q.
Proof.
  intros Hz. unfold float_round. rewrite Qred_correct, Qred_inject_Z. simpl.
  destruct z as [|n|n]; [done| |].
  - apply nearest53_integer. lia.
  - rewrite (nearest53_integer (Z.pos n)) by lia. done.
Qed.

(** The float nearest to a fraction that is not negative is within a
    relative error of [2 ^ -53] of it. *)
Lemma float_round_error (q : Q) :
  (0 <= q)%Q →
  (q * (1 - (1 # 2 ^ 53)) <= float_round q <= q * (1 + (1 # 2 ^ 53)))%Q.
Proof.
  intros Hq.
  assert (float_round q ==
          match Qnum (Qred q) with
          | 0%Z => 0
          | Z.pos n => nearest53 (Z.pos n) (Z.pos (Qden (Qred q)))
          | Z.neg n => - nearest53 (Z.pos n) (Z.pos (Qden (Qred q)))
          end)%Q as -> by apply Qred_correct.
  pose proof (Qred_correct q) as Hred.
  remember (Qred q) as r eqn:Hr. clear Hr. rewrite <- Hred in Hq |- *.
  destruct r as [n d]. unfold Qle in Hq. simpl in Hq |- *.
  destruct n as [|n|n]; [|apply nearest53_error|lia].
  split; unfold Qle; simpl; lia.
Qed.

End FloatRound.

(** ** Node identifiers *)

Section Fresh.

Implicit Types s : Scene.

Lemma fresh_id_above s k : is_Some (nodes s !! k) → (k < fresh_id s)%nat.
Proof.
  intros [nd Hk]. unfold fresh_id.
  assert (S k ∈ S <$> (map_to_list (nodes s)).*1) as Hin.
  { apply list_elem_of_fmap_2, list_elem_of_fmap. exists (k, nd).
    split; [done|]. by apply elem_of_map_to_list. }
  apply max_list_elem_of_le in Hin. lia.
Qed.

Lemma fresh_id_fresh s : nodes s !! fresh_id s = None.
Proof.
  destruct (nodes s !! fresh_id s) as [nd|] eqn:H; [|done].
  assert (fresh_id s < fresh_id s)%nat by (apply fresh_id_above; eauto). lia.
Qed.

Lemma fresh_id_next s : (next_id s ≤ fresh_id s)%nat.
Proof. unfold fresh_id. lia. Qed.

(** The bound only depends on the counter and on the identifiers in use. *)
Lemma fresh_id_le s s' (b : nat) :
  (next_id s' ≤ b)%nat →
  (∀ k, is_Some (nodes s' !! k) → (k < b)%nat) →
  (fresh_id s' ≤ b)%nat.
Proof.
  intros Hn Hk. unfold fresh_id.
  destruct (decide (S <$> (map_to_list (nodes s')).*1 = [])) as [->|Hne];
    simpl; [lia|].
  apply max_list_elem_of in Hne.
  apply list_elem_of_fmap in Hne as (k & Heq & Hin).
  apply list_elem_of_fmap in Hin as ([k' nd] & -> & Hin).
  apply elem_of_map_to_list in Hin. simpl in Heq.
  assert (k' < b)%nat by (apply Hk; eauto). lia.
Qed.

End Fresh.

Section FreshSteps.

Implicit Types s : Scene.

Lemma fresh_id_insert_new nd s : fresh_id (insert_new nd s) = S (fresh_id s).
Proof.
  apply Nat.le_antisymm.
  - apply (fresh_id_le s); simpl; [lia|].
    intros k [x Hk]. destruct (decide (k = fresh_id s)) as [->|Hne]; [lia|].
    rewrite lookup_insert_ne in Hk by done.
    assert (k < fresh_id s)%nat by (apply fresh_id_above; eauto). lia.
  - pose proof (fresh_id_next (insert_new nd s)) as H. simpl in H. done.
Qed.

Lemma fresh_id_same_keys s s' :
  next_id s' = next_id s →
  (∀ k, is_Some (nodes s' !! k) ↔ is_Some (nodes s !! k)) →
  fresh_id s' = fresh_id s.
Proof.
  intros Hn Hk. apply Nat.le_antisymm.
  - apply (fresh_id_le s); [rewrite Hn; apply fresh_id_next|].
    intros k Hin. by apply fresh_id_above, Hk.
  - apply (fresh_id_le s'); [rewrite <- Hn; apply fresh_id_next|].
    intros k Hin. by apply fresh_id_above, Hk.
Qed.

Lemma nodes_insert_new nd s k :
  nodes (insert_new nd s) !! k
  = if decide (k = fresh_id s) then Some nd else nodes s !! k.
Proof.
  simpl. case_decide as H; [subst; apply lookup_insert_eq|].
  by apply lookup_insert_ne.
Qed.

Lemma nodes_insert_new_old nd s k x :
  nodes s !! k = Some x → nodes (insert_new nd s) !! k = Some x.
Proof.
  intros Hk. rewrite nodes_insert_new. case_decide as H; [|done].
  subst. by rewrite fresh_id_fresh in Hk.
Qed.

End FreshSteps.

(** ** Removing a node *)

Section Remove.

Implicit Types s : Scene.

Lemma nodes_remove_node n s k nd :
  nodes (remove_node n s) !! k = Some nd
  ↔ nodes s !! k = Some nd ∧ goes_with n k nd = false.
Proof.
  unfold remove_node; simpl. rewrite map_lookup_filter_Some. simpl.
  destruct (goes_with n k nd); simpl; split; intros [H1 H2]; done.
Qed.

Lemma remove_node_subseteq n s : nodes (remove_node n s) ⊆ nodes s.
Proof. apply map_subseteq_spec. intros k nd. rewrite nodes_remove_node. tauto. Qed.

Lemma remove_node_gone n s : nodes (remove_node n s) !! n = None.
Proof.
  destruct (nodes (remove_node n s) !! n) as [nd|] eqn:H; [|done].
  apply nodes_remove_node in H as [_ H]. unfold goes_with in H.
  by rewrite bool_decide_eq_true_2 in H.
Qed.

Lemma remove_node_child n s k nd ty :
  node_kind nd = Shape ty n → nodes s !! k = Some nd →
  nodes (remove_node n s) !! k = None.
Proof.
  intros Hkind Hk.
  destruct (nodes (remove_node n s) !! k) as [nd'|] eqn:H; [|done].
  apply nodes_remove_node in H as [Hk' H]. simplify_eq.
  unfold goes_with in H. rewrite Hkind in H.
  rewrite (bool_decide_eq_true_2 (n = n)) in H by done.
  by rewrite orb_true_r in H.
Qed.

Lemma fresh_id_remove_node n s : fresh_id (remove_node n s) = fresh_id s.
Proof.
  apply Nat.le_antisymm.
  - apply (fresh_id_le s); [done|].
    intros k [nd Hk]. apply nodes_remove_node in Hk as [Hk _].
    apply fresh_id_above. eauto.
  - apply (fresh_id_next (remove_node n s)).
Qed.

Lemma wf_scene_WF s : wf_scene s = true ↔ WF s.
Proof.
  unfold wf_scene, WF. rewrite forallb_forall. split.
  - intros H k nd Hk. apply (H (k, nd)).
    apply list_elem_of_In. by apply elem_of_map_to_list.
  - intros H [k nd] Hin%list_elem_of_In. apply elem_of_map_to_list in Hin.
    by apply (H k).
Qed.

Lemma WF_parent s k nd ty p :
  WF s → nodes s !! k = Some nd → node_kind nd = Shape ty p →
  ∃ ndp, nodes s !! p = Some ndp ∧ node_kind ndp = Transform.
Proof.
  intros Hwf Hk Hkind. specialize (Hwf k nd Hk). unfold parent_ok in Hwf.
  rewrite Hkind in Hwf. destruct (nodes s !! p) as [ndp|]; [|done].
  apply bool_decide_eq_true in Hwf. eauto.
Qed.

Lemma WF_remove_node n s : WF s → WF (remove_node n s).
Proof.
  intros Hwf k nd Hk. apply nodes_remove_node in Hk as [Hk Hgo].
  unfold parent_ok. destruct (node_kind nd) as [|ty p| | | | |] eqn:Hkind; try done.
  destruct (WF_parent s k nd ty p Hwf Hk Hkind) as (ndp & Hp & Hkp).
  assert (nodes (remove_node n s) !! p = Some ndp) as ->.
  { apply nodes_remove_node. split; [done|].
    unfold goes_with in *. rewrite Hkind in Hgo. rewrite Hkp.
    apply orb_false_elim in Hgo as [_ Hgo]. by rewrite Hgo. }
  by apply bool_decide_eq_true.
Qed.

End Remove.

(** ** [apply_pfxtoon]: removing the pfx of an earlier run *)

Section DeletePrevious.

Lemma with_scene_id (w : World) : with_scene (scene w) w = w.
Proof. by destruct w. Qed.

Lemma delete_if_tagged_eval (n : nat) (w : World) :
  delete_if_tagged n w =
  match nodes (scene w) !! n with
  | Some nd =>
      if bool_decide (tag ∈ node_dyn nd) then
        match node_kind nd with
        | Shape _ p =>
            match nodes (scene w) !! p with
            | Some _ => (Ok tt, with_scene (remove_node p (scene w)) w)
            | None => (Raise MayaNodeError, w)
            end
        | _ => (Raise TypeError, w)
        end
      else (Ok tt, w)
  | None => (Ok tt, w)
  end.
Proof.
  unfold delete_if_tagged, hasattr, getParent, delete, bind, get_scene, ret.
  destruct (nodes (scene w) !! n) as [nd|] eqn:Hn; [|done].
  destruct (bool_decide (tag ∈ node_dyn nd)); [|done].
  rewrite Hn. destruct (node_kind nd) as [|ty p| | | | |]; try done.
  destruct (nodes (scene w) !! p); reflexivity.
Qed.

Lemma removed_with_cons n l s k nd :
  removed_with l s k nd → removed_with (n :: l) s k nd.
Proof.
  intros (n' & ndn & ty & p & Hin & H). exists n', ndn, ty, p.
  split; [by apply elem_of_cons; right | done].
Qed.

(** A step of the loop that changes nothing, at a handle that is not a
    tagged shape. *)
Lemma previous_deleted_skip n l s s' :
  (∀ nd, nodes s !! n = Some nd → tag ∉ node_dyn nd) →
  previous_deleted l s s' → previous_deleted (n :: l) s s'.
Proof.
  intros Hn (Hwf & Hsub & Hfresh & Hgone & Hkeep).
  split; [done|]. split; [done|]. split; [done|]. split.
  - intros n0 nd ty p Hin Hn0 Htag Hkind.
    apply elem_of_cons in Hin as [->|Hin]; [|by eapply Hgone].
    exfalso. by eapply Hn.
  - intros k nd Hk Hno. apply Hkeep; [done|].
    intros Hr. by apply Hno, removed_with_cons.
Qed.

(** On a well-formed scene the loop over shape handles runs to its end; it
    leaves a well-formed part of the scene, in which every tagged shape of
    the list is gone together with its transform, and which keeps every
    node that goes with none of those transforms. *)
Lemma delete_loop (l : list nat) (w : World) :
  WF (scene w) → shape_handles l (scene w) →
  ∃ s', for_each l delete_if_tagged w = (Ok tt, with_scene s' w) ∧
        previous_deleted l (scene w) s'.
Proof.
  revert w. induction l as [|n l IH]; intros w Hwf Hshapes.
  - exists (scene w). rewrite with_scene_id. split; [done|].
    split; [done|]. split; [done|]. split; [done|].
    split; [intros ? ? ? ? Hin; by apply not_elem_of_nil in Hin | by intros].
  - assert (shape_handles l (scene w)) as Hshapes'.
    { intros n' nd' Hin. apply Hshapes. by apply elem_of_cons; right. }
    simpl. unfold bind at 1. rewrite delete_if_tagged_eval.
    destruct (nodes (scene w) !! n) as [nd|] eqn:Hn; cycle 1.
    { destruct (IH w Hwf Hshapes') as (s' & Hrun & Hpost).
      exists s'. split; [done|]. apply previous_deleted_skip; [|done].
      intros nd. by rewrite Hn. }
    destruct (bool_decide (tag ∈ node_dyn nd)) eqn:Htag; cycle 1.
    { apply bool_decide_eq_false in Htag.
      destruct (IH w Hwf Hshapes') as (s' & Hrun & Hpost).
      exists s'. split; [done|]. apply previous_deleted_skip; [|done].
      intros nd'. rewrite Hn. by intros [= <-]. }
    apply bool_decide_eq_true in Htag.
    destruct (Hshapes n nd) as (ty & p & Hkind); [by apply elem_of_cons; left|done|].
    rewrite Hkind.
    destruct (WF_parent _ _ _ _ _ Hwf Hn Hkind) as (ndp & Hp & Hkp).
    rewrite Hp.
    set (s1 := remove_node p (scene w)).
    assert (nodes s1 ⊆ nodes (scene w)) as Hsub1 by apply remove_node_subseteq.
    destruct (IH (with_scene s1 w)) as (s' & Hrun & Hpost).
    { by apply WF_remove_node. }
    { intros n' nd' Hin Hn'. apply (Hshapes' n' nd' Hin).
      by eapply lookup_weaken. }
    destruct Hpost as (Hwf' & Hsub & Hfresh & Hgone & Hkeep). simpl in *.
    exists s'. split; [done|].
    split; [done|]. split; [by etrans|].
    split; [by rewrite Hfresh; apply fresh_id_remove_node|].
    assert (∀ k, nodes s1 !! k = None → nodes s' !! k = None) as Hnone.
    { intros k Hk. by eapply lookup_weaken_None. }
    split.
    + intros n0 nd0 ty0 p0 Hin Hn0 Htag0 Hkind0.
      destruct (nodes s1 !! n0) as [nd1|] eqn:Hn1.
      * assert (nd1 = nd0) as ->.
        { eapply lookup_weaken in Hn1; [|done]. congruence. }
        apply elem_of_cons in Hin as [->|Hin].
        { pose proof (remove_node_child p (scene w) n nd ty Hkind Hn) as Hc.
          fold s1 in Hc. congruence. }
        by eapply Hgone.
      * split; [by apply Hnone|]. apply Hnone.
        assert (p0 = p) as ->; [|apply remove_node_gone].
        destruct (goes_with p n0 nd0) eqn:Hgo.
        -- unfold goes_with in Hgo. rewrite Hkind0 in Hgo.
           apply orb_prop in Hgo as [Hgo|Hgo]; apply bool_decide_eq_true in Hgo;
             [|done].
           subst n0. congruence.
        -- assert (nodes s1 !! n0 = Some nd0) by by apply nodes_remove_node.
           congruence.
    + intros k ndk Hk Hno. apply Hkeep.
      * apply nodes_remove_node. split; [done|].
        destruct (goes_with p k ndk) eqn:Hgo; [|done].
        exfalso. apply Hno. exists n, nd, ty, p.
        split; [by apply elem_of_cons; left|done].
      * intros (n' & ndn & ty' & p' & Hin & Hn' & H).
        apply Hno. exists n', ndn, ty', p'.
        split; [by apply elem_of_cons; right|].
        split; [by eapply lookup_weaken|done].
Qed.

End DeletePrevious.

(** ** [apply_pfxtoon]: creating the pfx *)

Section CreatePfx.

Lemma shapes_of_spec (ty : ShapeType) (s : Scene) (n : nat) :
  n ∈ shapes_of ty s ↔ ∃ nd, nodes s !! n = Some nd ∧ is_shape ty nd = true.
Proof.
  unfold shapes_of. rewrite list_elem_of_fmap. split.
  - intros ([k nd] & -> & Hin). apply list_elem_of_filter in Hin as [Hs Hin].
    apply elem_of_map_to_list in Hin. exists nd. split; [done|].
    simpl in Hs. by apply Is_true_true.
  - intros (nd & Hn & Hs). exists (n, nd). split; [done|].
    apply list_elem_of_filter. split; [by apply Is_true_true|].
    by apply elem_of_map_to_list.
Qed.

Lemma createNode_run (ty : ShapeType) (w : World) :
  let t := fresh_id (scene w) in
  createNode ty w =
  (Ok (S t),
   with_scene
     (set_selection [S t]
        (insert_new (mkNode (Shape ty t)
                       (shape_type_name ty +:+ "Shape" +:+ pretty t) ∅ ∅)
           (insert_new (mkNode Transform (shape_type_name ty +:+ pretty t) ∅ ∅)
              (scene w)))) w).
Proof.
  intros t. unfold createNode, bind, get_scene, put_scene, ret.
  by rewrite fresh_id_insert_new.
Qed.

Lemma set_nodes_set_nodes f g s :
  set_nodes f (set_nodes g s) = set_nodes (f ∘ g) s.
Proof. done. Qed.

(** The loop over the preset writes every item to the node. *)
Lemma set_attrs_run (sh : nat) (items : list (string * Value)) (w : World)
    (nd : Node) :
  nodes (scene w) !! sh = Some nd →
  for_each items (λ item, setAttr (sh, item.1) item.2) w =
  (Ok tt,
   with_scene
     (set_nodes (<[sh := foldl (λ x item, with_attr item.1 item.2 x) nd items]>)
        (scene w)) w).
Proof.
  revert w nd. induction items as [|[a v] items IH]; intros w nd Hsh; simpl.
  - unfold ret, set_nodes. rewrite insert_id by done.
    destruct w as [[]]; done.
  - unfold bind at 1. unfold setAttr at 1. unfold bind at 1, get_scene. simpl.
    rewrite Hsh. unfold put_scene.
    rewrite (IH _ (with_attr a v nd)) by (simpl; apply lookup_insert_eq).
    simpl. unfold with_scene, set_nodes. simpl. by rewrite insert_insert_eq.
Qed.

Lemma connect_meshes_nodes (sh : nat) (ms : list nat) (i : nat) (w : World) :
  nodes (scene (connect_meshes sh ms i w).2) = nodes (scene w).
Proof.
  revert i w. induction ms as [|m ms IH]; intros i w; simpl; [done|].
  unfold bind at 1. unfold connectAttr at 1. unfold bind at 1, get_scene.
  case_bool_decide; [|done]. unfold put_scene at 1.
  unfold bind at 1. unfold connectAttr at 1. unfold bind at 1, get_scene.
  simpl. case_bool_decide; [|done]. unfold put_scene at 1.
  by rewrite IH.
Qed.

Lemma connect_meshes_inv (sh : nat) (ms : list nat) (i : nat) (w w' : World) :
  connect_meshes sh ms i w = (Ok tt, w') →
  w' = with_scene
         (set_connections (connections (scene w) ++ mesh_connections sh ms i)
            (scene w)) w.
Proof.
  revert i w. induction ms as [|m ms IH]; intros i w; simpl.
  - intros [= <-]. rewrite app_nil_r. by destruct w as [[]].
  - unfold bind at 1. unfold connectAttr at 1. unfold bind at 1, get_scene.
    case_bool_decide; [|done]. unfold put_scene at 1.
    unfold bind at 1. unfold connectAttr at 1. unfold bind at 1, get_scene.
    simpl. case_bool_decide; [|done]. unfold put_scene at 1.
    intros ->%IH. unfold with_scene, set_connections. simpl.
    by rewrite <- !app_assoc.
Qed.

Lemma connect_meshes_run (sh : nat) (ms : list nat) (i : nat) (w : World) :
  is_Some (nodes (scene w) !! sh) →
  (∀ m, m ∈ ms → is_Some (nodes (scene w) !! m)) →
  connect_meshes sh ms i w =
  (Ok tt,
   with_scene
     (set_connections (connections (scene w) ++ mesh_connections sh ms i)
        (scene w)) w).
Proof.
  intros Hsh Hms.
  destruct (connect_meshes sh ms i w) as [[[]|e] w'] eqn:Hrun.
  { by rewrite (connect_meshes_inv _ _ _ _ _ Hrun). }
  exfalso. revert i w Hsh Hms Hrun.
  induction ms as [|m ms IH]; intros i w Hsh Hms; simpl; [done|].
  assert (is_Some (nodes (scene w) !! m)) as Hm by (apply Hms; by left).
  unfold bind at 1. unfold connectAttr at 1. unfold bind at 1, get_scene.
  rewrite bool_decide_eq_true_2 by done. unfold put_scene at 1.
  unfold bind at 1. unfold connectAttr at 1. unfold bind at 1, get_scene.
  simpl. rewrite bool_decide_eq_true_2 by done. unfold put_scene at 1.
  apply IH; simpl; [done|]. intros m' Hin. apply Hms. by right.
Qed.

Lemma foldl_with_attr (items : list (string * Value)) (nd : Node) :
  foldl (λ x item, with_attr item.1 item.2 x) nd items =
  mkNode (node_kind nd) (node_name nd)
         (foldl (λ m item, <[item.1 := item.2]> m) (node_attrs nd) items)
         (node_dyn nd).
Proof.
  revert nd. induction items as [|[a v] items IH]; intros nd; simpl.
  - by destruct nd.
  - by rewrite IH.
Qed.

(** Writing the items of the preset one after the other, in the order the
    dictionary yields them, leaves exactly the preset. *)
Lemma preset_written :
  foldl (λ m item, <[item.1 := item.2]> m) (∅ : gmap string Value)
        (map_to_list preset) = preset.
Proof. by vm_compute. Qed.

Lemma getParent_shape (n : nat) (w : World) (nd : Node) ty p :
  nodes (scene w) !! n = Some nd → node_kind nd = Shape ty p →
  getParent n w = (Ok (Some p), w).
Proof.
  intros Hn Hk. unfold getParent, bind, get_scene. by rewrite Hn, Hk.
Qed.

(** Up to the connection of the meshes, [create_pfx] always succeeds and
    leaves the new transform and the new shape, set up and tagged. *)
Lemma create_pfx_eval (ms : list nat) (w : World) :
  let t := fresh_id (scene w) in
  create_pfx ms w =
  bind (connect_meshes (S t) ms 0)
       (λ _, bind (getParent (S t)) (λ parent, ret (parent, S t)))
       (with_scene (created_pfx [] (scene w)) w).
Proof.
  intros t. unfold create_pfx.
  unfold bind at 1. rewrite createNode_run. fold t.
  unfold bind at 1.
  rewrite (set_attrs_run (S t) _ _
             (mkNode (Shape PfxToon t) ("pfxToon" +:+ "Shape" +:+ pretty t) ∅ ∅)).
  2: { simpl. rewrite fresh_id_insert_new. apply lookup_insert_eq. }
  unfold bind at 1. unfold addAttr. unfold bind at 1, get_scene. simpl.
  unfold put_scene. f_equal.
  unfold with_scene, created_pfx, set_nodes; simpl. f_equal.
  rewrite fresh_id_insert_new. fold t.
  rewrite alter_insert_eq, insert_insert_eq, app_nil_r.
  rewrite foldl_with_attr. unfold with_dyn; simpl.
  by rewrite preset_written, (right_id_L ∅ (∪)).
Qed.

Lemma created_pfx_nodes (ms : list nat) (s : Scene) :
  nodes (created_pfx ms s) = nodes (created_pfx [] s).
Proof. done. Qed.

Lemma created_pfx_shape (ms : list nat) (s : Scene) :
  nodes (created_pfx ms s) !! S (fresh_id s) = Some (pfx_shape_node (fresh_id s)).
Proof. simpl. apply lookup_insert_eq. Qed.

Lemma created_pfx_transform (ms : list nat) (s : Scene) :
  nodes (created_pfx ms s) !! fresh_id s = Some (pfx_transform_node (fresh_id s)).
Proof.
  simpl. rewrite lookup_insert_ne by lia. apply lookup_insert_eq.
Qed.

Lemma created_pfx_old (ms : list nat) (s : Scene) (k : nat) (nd : Node) :
  nodes s !! k = Some nd → nodes (created_pfx ms s) !! k = Some nd.
Proof.
  intros Hk. assert (k < fresh_id s)%nat by (apply fresh_id_above; eauto).
  simpl. by rewrite !lookup_insert_ne by lia.
Qed.

Lemma created_pfx_lookup (ms : list nat) (s : Scene) (k : nat) (nd : Node) :
  nodes (created_pfx ms s) !! k = Some nd →
  (k = S (fresh_id s) ∧ nd = pfx_shape_node (fresh_id s)) ∨
  (k = fresh_id s ∧ nd = pfx_transform_node (fresh_id s)) ∨
  nodes s !! k = Some nd.
Proof.
  simpl. intros Hk.
  destruct (decide (k = S (fresh_id s))) as [->|Hne1].
  { rewrite lookup_insert_eq in Hk. left. by simplify_eq. }
  rewrite lookup_insert_ne in Hk by done.
  destruct (decide (k = fresh_id s)) as [->|Hne2].
  { rewrite lookup_insert_eq in Hk. right; left. by simplify_eq. }
  rewrite lookup_insert_ne in Hk by done. by right; right.
Qed.

(** Whenever [create_pfx] returns, it returns the new transform and the
    new shape and leaves the scene [created_pfx]. *)
Lemma create_pfx_inv (ms : list nat) (w w' : World) r :
  create_pfx ms w = (Ok r, w') →
  r = (Some (fresh_id (scene w)), S (fresh_id (scene w))) ∧
  w' = with_scene (created_pfx ms (scene w)) w.
Proof.
  rewrite create_pfx_eval. intros Hrun.
  bind_inv Hrun u w1 Hconn. destruct u.
  apply connect_meshes_inv in Hconn. simpl in Hconn. subst w1.
  unfold bind at 1 in Hrun.
  rewrite (getParent_shape _ _ (pfx_shape_node (fresh_id (scene w)))
             PfxToon (fresh_id (scene w))) in Hrun.
  - unfold ret in Hrun. injection Hrun as <- <-. split; [done|].
    unfold with_scene, set_connections, created_pfx; simpl.
    by rewrite app_nil_r.
  - simpl. apply lookup_insert_eq.
  - done.
Qed.

(** It returns whenever every mesh handle is live. *)
Lemma create_pfx_run (ms : list nat) (w : World) :
  (∀ m, m ∈ ms → is_Some (nodes (scene w) !! m)) →
  create_pfx ms w =
  (Ok (Some (fresh_id (scene w)), S (fresh_id (scene w))),
   with_scene (created_pfx ms (scene w)) w).
Proof.
  intros Hms.
  destruct (create_pfx ms w) as [[r|e] w'] eqn:Hrun.
  { by apply create_pfx_inv in Hrun as [-> ->]. }
  exfalso. rewrite create_pfx_eval in Hrun.
  unfold bind at 1 in Hrun. rewrite connect_meshes_run in Hrun.
  - unfold bind at 1 in Hrun.
    rewrite (getParent_shape _ _ (pfx_shape_node (fresh_id (scene w)))
               PfxToon (fresh_id (scene w))) in Hrun; [done| |done].
    simpl. apply lookup_insert_eq.
  - simpl. rewrite lookup_insert_eq. eauto.
  - intros m Hm. destruct (Hms m Hm) as [nd Hnd]. exists nd.
    by apply (created_pfx_old []).
Qed.

End CreatePfx.

(** ** [apply_pfxtoon] *)

Section ApplyPfxtoon.

Lemma survivor_spec (s : Scene) (m : nat) :
  survivor s m = true →
  ∃ nd, nodes s !! m = Some nd ∧ ¬ removed_with (shapes_of PfxToon s) s m nd.
Proof.
  unfold survivor. destruct (nodes s !! m) as [nd|] eqn:Hm; [|done].
  intros Hneg%negb_true_iff. exists nd. split; [done|].
  intros (n & ndn & ty & p & Hin & Hn & Htag & Hkind & Hgo).
  assert (existsb
            (λ n, match nodes s !! n with
                  | Some ndn =>
                      bool_decide (tag ∈ node_dyn ndn)
                      && match node_kind ndn with
                         | Shape _ p => goes_with p m nd
                         | _ => false
                         end
                  | None => false
                  end) (shapes_of PfxToon s) = true) as Hex; [|congruence].
  apply existsb_exists. exists n. split; [by apply list_elem_of_In|].
  rewrite Hn, Hkind, Hgo. by rewrite bool_decide_eq_true_2.
Qed.

Lemma delete_previous_pfx_run (w : World) :
  WF (scene w) →
  ∃ s', delete_previous_pfx w = (Ok tt, with_scene s' w) ∧
        previous_deleted (shapes_of PfxToon (scene w)) (scene w) s'.
Proof.
  intros Hwf. unfold delete_previous_pfx, ls, bind at 1, bind at 1, get_scene, ret.
  apply delete_loop; [done|].
  intros n nd Hin Hn. apply shapes_of_spec in Hin as (nd' & Hn' & Hs).
  assert (nd' = nd) as -> by congruence. unfold is_shape in Hs.
  destruct (node_kind nd) as [|ty p| | | | |]; try done. eauto.
Qed.

Lemma apply_pfxtoon_eval (meshes : option (list nat)) (w : World) :
  apply_pfxtoon meshes w =
  bind delete_previous_pfx
       (λ _, create_pfx (effective_meshes meshes (scene w))) w.
Proof. unfold apply_pfxtoon. by destruct meshes as [[|m l]|]. Qed.

(** Whenever [apply_pfxtoon] returns, it has created a pfx connected to the
    meshes it works on, on top of what the deletion of the earlier pfx
    left. *)
Lemma apply_pfxtoon_inv (meshes : option (list nat)) (w w' : World) r :
  apply_pfxtoon meshes w = (Ok r, w') →
  ∃ w1, delete_previous_pfx w = (Ok tt, w1) ∧
        r = (Some (fresh_id (scene w1)), S (fresh_id (scene w1))) ∧
        w' = with_scene
               (created_pfx (effective_meshes meshes (scene w)) (scene w1)) w1.
Proof.
  rewrite apply_pfxtoon_eval. intros Hrun. bind_inv Hrun u w1 Hdel.
  destruct u. apply create_pfx_inv in Hrun as [-> ->]. eauto.
Qed.

(** On a well-formed scene it returns, provided the meshes survive the
    deletion of the earlier pfx. *)
Lemma apply_pfxtoon_run (meshes : option (list nat)) (w : World) :
  WF (scene w) →
  (∀ m, m ∈ effective_meshes meshes (scene w) → survivor (scene w) m = true) →
  ∃ s', previous_deleted (shapes_of PfxToon (scene w)) (scene w) s' ∧
        apply_pfxtoon meshes w =
        (Ok (Some (fresh_id (scene w)), S (fresh_id (scene w))),
         with_scene (created_pfx (effective_meshes meshes (scene w)) s') w).
Proof.
  intros Hwf Hms.
  destruct (delete_previous_pfx_run w Hwf) as (s' & Hdel & Hpost).
  exists s'. split; [done|].
  rewrite apply_pfxtoon_eval. unfold bind. rewrite Hdel.
  destruct Hpost as (_ & _ & Hfresh & _ & Hkeep).
  rewrite create_pfx_run; [by simpl; rewrite Hfresh|].
  intros m Hm. simpl.
  destruct (survivor_spec _ _ (Hms m Hm)) as (nd & Hnd & Hno). eauto.
Qed.

Lemma mesh_connections_lookup (sh : nat) (ms : list nat) (i0 i m : nat) :
  ms !! i = Some m →
  ((m, "outMesh"), surface_plug sh (i0 + i)) ∈ mesh_connections sh ms i0 ∧
  ((m, "worldMatrix[0]"), matrix_plug sh (i0 + i)) ∈ mesh_connections sh ms i0.
Proof.
  revert i0 i. induction ms as [|m' ms IH]; intros i0 i Hi; [done|].
  destruct i as [|i]; simpl in *.
  - injection Hi as ->. rewrite Nat.add_0_r. split.
    + apply elem_of_cons. by left.
    + apply elem_of_cons. right. apply elem_of_cons. by left.
  - destruct (IH (S i0) i Hi) as [H1 H2].
    replace (i0 + S i)%nat with (S i0 + i)%nat by lia.
    split; apply elem_of_cons; right; apply elem_of_cons; by right.
Qed.

Lemma string_length_app (s t : string) :
  String.length (s +:+ t) = (String.length s + String.length t)%nat.
Proof. induction s as [|c s IH]; simpl; [done | by rewrite IH]. Qed.

Lemma string_app_inj_r (t s1 s2 : string) : s1 +:+ t = s2 +:+ t → s1 = s2.
Proof.
  revert s2. induction s1 as [|c1 s1 IH]; intros [|c2 s2] H; simpl in H.
  - done.
  - apply (f_equal String.length) in H.
    rewrite !string_length_app in H. simpl in H. lia.
  - apply (f_equal String.length) in H.
    rewrite !string_length_app in H. simpl in H. lia.
  - injection H as -> H. by rewrite (IH s2 H).
Qed.

(** Different indices name different slots. *)
Lemma surface_plug_inj (sh i j : nat) :
  surface_plug sh i = surface_plug sh j → i = j.
Proof.
  unfold surface_plug. intros H%(f_equal snd). simpl in H.
  apply (inj (String.app _)), string_app_inj_r in H.
  by apply (inj pretty).
Qed.

Lemma matrix_plug_inj (sh i j : nat) :
  matrix_plug sh i = matrix_plug sh j → i = j.
Proof.
  unfold matrix_plug. intros H%(f_equal snd). simpl in H.
  apply (inj (String.app _)), string_app_inj_r in H.
  by apply (inj pretty).
Qed.

Lemma forallb_elem_of {A} (f : A → bool) (l : list A) :
  forallb f l = true → ∀ x, x ∈ l → f x = true.
Proof.
  intros H x Hin. rewrite forallb_forall in H. by apply H, list_elem_of_In.
Qed.

(** C5: the pfxToon shape that [apply_pfxtoon] creates draws the
    intersection lines only, in white, and the i-th mesh of the given list
    is connected through [outMesh] and [worldMatrix[0]] to slot i of
    [inputSurface], the slots being pairwise distinct. *)
Theorem apply_pfxtoon_indicator (meshes : list nat) (w : World) :
  wf_scene (scene w) = true →
  forallb (survivor (scene w)) (effective_meshes (Some meshes) (scene w)) = true →
  ∃ t sh w' nd,
    apply_pfxtoon (Some meshes) w = (Ok (Some t, sh), w') ∧
    nodes (scene w') !! sh = Some nd ∧
    node_kind nd = Shape PfxToon t ∧
    node_attrs nd !! "selfIntersect" = Some (VInt 1) ∧
    node_attrs nd !! "intersectionLines" = Some (VInt 1) ∧
    node_attrs nd !! "creaseLines" = Some (VInt 0) ∧
    node_attrs nd !! "profileLines" = Some (VInt 0) ∧
    node_attrs nd !! "intersectionColor" = Some (VTriple 1 1 1) ∧
    (∀ i m, meshes !! i = Some m →
       ((m, "outMesh"), surface_plug sh i) ∈ connections (scene w') ∧
       ((m, "worldMatrix[0]"), matrix_plug sh i) ∈ connections (scene w')) ∧
    (∀ i j, surface_plug sh i = surface_plug sh j → i = j) ∧
    (∀ i j, matrix_plug sh i = matrix_plug sh j → i = j).
Proof.
  intros Hwf%wf_scene_WF Hms.
  destruct (apply_pfxtoon_run (Some meshes) w Hwf (forallb_elem_of _ _ Hms))
    as (s' & Hpost & Hrun).
  eexists _, _, _, (pfx_shape_node (fresh_id (scene w))).
  split; [exact Hrun|].
  destruct Hpost as (_ & _ & Hfresh & _).
  split; [simpl; rewrite Hfresh; apply lookup_insert_eq|].
  split; [done|]. do 5 (split; [done|]).
  split; [|split; [apply surface_plug_inj | apply matrix_plug_inj]].
  intros i m Hi. destruct meshes as [|m0 ms]; [done|].
  unfold effective_meshes, created_pfx, connections. rewrite Hfresh.
  destruct (mesh_connections_lookup (S (fresh_id (scene w))) (m0 :: ms) 0 i m Hi).
  split; apply elem_of_app; by right.
Qed.

Lemma apply_pfxtoon_indicator_witness :
  ∃ t sh w' nd,
    apply_pfxtoon (Some [1%nat]) demo_world = (Ok (Some t, sh), w') ∧
    nodes (scene w') !! sh = Some nd ∧
    node_kind nd = Shape PfxToon t ∧
    node_attrs nd !! "selfIntersect" = Some (VInt 1) ∧
    node_attrs nd !! "intersectionLines" = Some (VInt 1) ∧
    node_attrs nd !! "creaseLines" = Some (VInt 0) ∧
    node_attrs nd !! "profileLines" = Some (VInt 0) ∧
    node_attrs nd !! "intersectionColor" = Some (VTriple 1 1 1) ∧
    (∀ i m, [1%nat] !! i = Some m →
       ((m, "outMesh"), surface_plug sh i) ∈ connections (scene w') ∧
       ((m, "worldMatrix[0]"), matrix_plug sh i) ∈ connections (scene w')) ∧
    (∀ i j, surface_plug sh i = surface_plug sh j → i = j) ∧
    (∀ i j, matrix_plug sh i = matrix_plug sh j → i = j).
Proof.
  apply (apply_pfxtoon_indicator [1%nat] demo_world); vm_compute; reflexivity.
Defined.

(** C9: an empty list of meshes is treated like [None]: the two calls run
    alike, and whenever the call returns, every mesh shape of the scene is
    connected to the new pfx, slot by slot. *)
Theorem apply_pfxtoon_empty_list (w : World) :
  apply_pfxtoon (Some []) w = apply_pfxtoon None w ∧
  ∀ pfx sh w',
    apply_pfxtoon (Some []) w = (Ok (pfx, sh), w') →
    ∀ i m, shapes_of Mesh (scene w) !! i = Some m →
      ((m, "outMesh"), surface_plug sh i) ∈ connections (scene w') ∧
      ((m, "worldMatrix[0]"), matrix_plug sh i) ∈ connections (scene w').
Proof.
  split; [done|]. intros pfx sh w' Hrun i m Hi.
  apply apply_pfxtoon_inv in Hrun as (w1 & _ & [= -> ->] & ->).
  unfold effective_meshes, with_scene, created_pfx, scene, connections.
  destruct (mesh_connections_lookup
              (S (fresh_id (Host.scene w1))) (shapes_of Mesh (Host.scene w)) 0 i m Hi).
  split; apply elem_of_app; by right.
Qed.

Lemma apply_pfxtoon_empty_list_witness :
  apply_pfxtoon (Some []) demo_world = apply_pfxtoon None demo_world ∧
  apply_pfxtoon (Some []) demo_world
  = (Ok (Some 4%nat, 5%nat), (apply_pfxtoon (Some []) demo_world).2) ∧
  shapes_of Mesh (scene demo_world) !! 0%nat = Some 1%nat ∧
  ((1%nat, "outMesh"), surface_plug 5 0)
    ∈ connections (scene (apply_pfxtoon (Some []) demo_world).2) ∧
  ((1%nat, "worldMatrix[0]"), matrix_plug 5 0)
    ∈ connections (scene (apply_pfxtoon (Some []) demo_world).2).
Proof.
  destruct (apply_pfxtoon_empty_list demo_world) as [Heq Hconn].
  split; [exact Heq|].
  assert (apply_pfxtoon (Some []) demo_world
          = (Ok (Some 4%nat, 5%nat), (apply_pfxtoon (Some []) demo_world).2))
    as Hrun by (vm_compute; reflexivity).
  assert (shapes_of Mesh (scene demo_world) !! 0%nat = Some 1%nat)
    as Hmesh by (vm_compute; reflexivity).
  split; [exact Hrun|]. split; [exact Hmesh|].
  exact (Hconn _ _ _ Hrun 0%nat 1%nat Hmesh).
Defined.

(** C10: on a well-formed scene, [apply_pfxtoon] removes every earlier
    tagged pfxToon shape together with its parent transform, and the shape
    it creates and tags is the only tagged pfxToon shape of the scene it
    leaves. *)
Theorem apply_pfxtoon_single_setup (meshes : option (list nat)) (w : World) :
  wf_scene (scene w) = true →
  forallb (survivor (scene w)) (effective_meshes meshes (scene w)) = true →
  ∃ t sh w',
    apply_pfxtoon meshes w = (Ok (Some t, sh), w') ∧
    (∀ n nd ty p,
       nodes (scene w) !! n = Some nd → tagged_pfx nd = true →
       node_kind nd = Shape ty p →
       nodes (scene w') !! n = None ∧ nodes (scene w') !! p = None) ∧
    (∃ nd, nodes (scene w') !! sh = Some nd ∧ tagged_pfx nd = true ∧
           node_kind nd = Shape PfxToon t) ∧
    (∀ k nd, nodes (scene w') !! k = Some nd → tagged_pfx nd = true → k = sh).
Proof.
  intros Hwf%wf_scene_WF Hms.
  destruct (apply_pfxtoon_run meshes w Hwf (forallb_elem_of _ _ Hms))
    as (s' & Hpost & Hrun).
  destruct Hpost as (Hwf' & Hsub & Hfresh & Hgone & Hkeep).
  set (t := fresh_id (scene w)) in *.
  assert (∀ n nd ty p,
            nodes (scene w) !! n = Some nd → tagged_pfx nd = true →
            node_kind nd = Shape ty p →
            nodes s' !! n = None ∧ nodes s' !! p = None) as Hold.
  { intros n nd ty p Hn [Hshape Htag%bool_decide_eq_true]%andb_prop Hkind.
    apply (Hgone n nd ty p); try done.
    apply shapes_of_spec. eauto. }
  eexists t, (S t), _. split; [exact Hrun|]. simpl. rewrite Hfresh.
  split; [|split].
  - intros n nd ty p Hn Htag Hkind.
    destruct (Hold n nd ty p Hn Htag Hkind) as [Hn' Hp'].
    assert (n < t)%nat by (apply fresh_id_above; eauto).
    destruct (WF_parent _ _ _ _ _ Hwf Hn Hkind) as (ndp & Hp & _).
    assert (p < t)%nat by (apply fresh_id_above; eauto).
    by rewrite !lookup_insert_ne by lia.
  - exists (pfx_shape_node t). rewrite lookup_insert_eq.
    split; [done|]. split; [by vm_compute | done].
  - intros k nd Hk Htag.
    destruct (decide (k = S t)) as [->|Hne1]; [done|].
    rewrite lookup_insert_ne in Hk by done.
    destruct (decide (k = t)) as [->|Hne2].
    { rewrite lookup_insert_eq in Hk. by simplify_eq. }
    rewrite lookup_insert_ne in Hk by done. exfalso.
    assert (nodes (scene w) !! k = Some nd) as Hk0 by by eapply lookup_weaken.
    pose proof Htag as [Hshape _]%andb_prop. unfold is_shape in Hshape.
    destruct (node_kind nd) as [|ty p| | | | |] eqn:Hkind; try done.
    destruct (Hold k nd ty p Hk0 Htag Hkind) as [Hnone _]. congruence.
Qed.

Lemma apply_pfxtoon_single_setup_witness :
  ∃ t sh w',
    apply_pfxtoon None demo_world = (Ok (Some t, sh), w') ∧
    (∀ n nd ty p,
       nodes (scene demo_world) !! n = Some nd → tagged_pfx nd = true →
       node_kind nd = Shape ty p →
       nodes (scene w') !! n = None ∧ nodes (scene w') !! p = None) ∧
    (∃ nd, nodes (scene w') !! sh = Some nd ∧ tagged_pfx nd = true ∧
           node_kind nd = Shape PfxToon t) ∧
    (∀ k nd, nodes (scene w') !! k = Some nd → tagged_pfx nd = true → k = sh).
Proof.
  apply (apply_pfxtoon_single_setup None demo_world); vm_compute; reflexivity.
Defined.

End ApplyPfxtoon.

(** ** [create_material_override] *)

Section MaterialOverride.

Implicit Types (s : Scene) (w : World).

Lemma scene_with_scene s w : scene (with_scene s w) = s.
Proof. done. Qed.

Lemma with_scene_with_scene s s' w :
  with_scene s (with_scene s' w) = with_scene s w.
Proof. done. Qed.

Lemma fresh_id_set_selection l s : fresh_id (set_selection l s) = fresh_id s.
Proof. done. Qed.

Lemma fresh_id_set_connections c s : fresh_id (set_connections c s) = fresh_id s.
Proof. done. Qed.

Lemma fresh_id_set_visible_layer l s : fresh_id (set_visible_layer l s) = fresh_id s.
Proof. done. Qed.

Lemma fresh_id_alter f k s : fresh_id (set_nodes (alter f k) s) = fresh_id s.
Proof.
  apply fresh_id_same_keys; [done|]. intros j. simpl.
  destruct (decide (j = k)) as [->|Hne].
  - rewrite lookup_alter_eq. by rewrite fmap_is_Some.
  - by rewrite lookup_alter_ne.
Qed.

Lemma nodes_set_selection l s : nodes (set_selection l s) = nodes s.
Proof. done. Qed.

Lemma nodes_set_connections c s : nodes (set_connections c s) = nodes s.
Proof. done. Qed.

Lemma nodes_set_visible_layer l s : nodes (set_visible_layer l s) = nodes s.
Proof. done. Qed.

Lemma nodes_set_nodes f s : nodes (set_nodes f s) = f (nodes s).
Proof. done. Qed.

Lemma nodes_insert_new_eq nd s : nodes (insert_new nd s) = <[fresh_id s := nd]> (nodes s).
Proof. done. Qed.

Lemma create_depend_run ty name w :
  create_depend ty name w =
  (Ok (fresh_id (scene w)),
   with_scene (set_selection [fresh_id (scene w)]
                 (insert_new (mkNode (Depend ty) name ∅ ∅) (scene w))) w).
Proof. done. Qed.

Lemma add_node_run nd w :
  add_node nd w = (Ok (fresh_id (scene w)), with_scene (insert_new nd (scene w)) w).
Proof. done. Qed.

Lemma kind_of_run n w nd :
  nodes (scene w) !! n = Some nd → kind_of n w = (Ok (node_kind nd), w).
Proof. intros H. unfold kind_of, bind, get_scene. by rewrite H. Qed.

Lemma connectAttr_run src dst w :
  is_Some (nodes (scene w) !! src.1) → is_Some (nodes (scene w) !! dst.1) →
  connectAttr src dst w =
  (Ok tt, with_scene (set_connections (connections (scene w) ++ [(src, dst)])
                        (scene w)) w).
Proof.
  intros Hs Hd. unfold connectAttr, bind, get_scene.
  by rewrite bool_decide_eq_true_2.
Qed.

Lemma setAttr_run n a v w nd :
  nodes (scene w) !! n = Some nd →
  setAttr (n, a) v w =
  (Ok tt, with_scene (set_nodes (alter (with_attr a v) n) (scene w)) w).
Proof.
  intros H. unfold setAttr, bind, get_scene. simpl. rewrite H.
  unfold put_scene. do 2 f_equal. unfold set_nodes. f_equal.
  apply map_eq. intros j. destruct (decide (j = n)) as [->|Hne].
  - by rewrite lookup_insert_eq, lookup_alter_eq, H.
  - by rewrite lookup_insert_ne, lookup_alter_ne.
Qed.

Lemma createCollection_layer_run owner name w nd :
  nodes (scene w) !! owner = Some nd → node_kind nd = RenderLayer →
  createCollection owner name w =
  (Ok (fresh_id (scene w)),
   with_scene (insert_new (mkNode (Collection owner owner) name ∅ ∅) (scene w)) w).
Proof.
  intros Hn Hk. unfold createCollection, bind.
  by rewrite (kind_of_run _ _ _ Hn), Hk.
Qed.

Lemma createCollection_nested_run owner name w nd l o :
  nodes (scene w) !! owner = Some nd → node_kind nd = Collection l o →
  createCollection owner name w =
  (Ok (fresh_id (scene w)),
   with_scene (insert_new (mkNode (Collection l owner) name ∅ ∅) (scene w)) w).
Proof.
  intros Hn Hk. unfold createCollection, bind.
  by rewrite (kind_of_run _ _ _ Hn), Hk.
Qed.

Lemma getSelector_run c w nd l o :
  nodes (scene w) !! c = Some nd → node_kind nd = Collection l o →
  getSelector c w = (Ok c, w).
Proof.
  intros Hn Hk. unfold getSelector, bind.
  by rewrite (kind_of_run _ _ _ Hn), Hk.
Qed.

Lemma createOverride_run owner name type_id w nd l o :
  nodes (scene w) !! owner = Some nd → node_kind nd = Collection l o →
  createOverride owner name type_id w =
  (Ok (fresh_id (scene w)),
   with_scene (insert_new (mkNode (Override l owner type_id) name ∅ ∅)
                 (scene w)) w).
Proof.
  intros Hn Hk. unfold createOverride, bind.
  by rewrite (kind_of_run _ _ _ Hn), Hk.
Qed.

Lemma switchToLayer_run rs l w ndr nd :
  nodes (scene w) !! rs = Some ndr → node_kind ndr = RenderSetup →
  nodes (scene w) !! l = Some nd → node_kind nd = RenderLayer →
  switchToLayer rs l w =
  (Ok tt, with_scene (set_visible_layer (Some l) (scene w)) w).
Proof.
  intros Hr Hkr Hn Hk. unfold switchToLayer, bind.
  by rewrite (kind_of_run _ _ _ Hr), Hkr, (kind_of_run _ _ _ Hn), Hk.
Qed.

Lemma createRenderLayer_run rs name w ndr :
  nodes (scene w) !! rs = Some ndr → node_kind ndr = RenderSetup →
  createRenderLayer rs name w =
  (Ok (fresh_id (scene w)),
   with_scene (insert_new (mkNode RenderLayer name ∅ ∅) (scene w)) w).
Proof.
  intros Hr Hkr. unfold createRenderLayer, bind.
  by rewrite (kind_of_run _ _ _ Hr), Hkr.
Qed.

Lemma render_setup_of_Some s rs :
  render_setup_of s = Some rs →
  ∃ nd, nodes s !! rs = Some nd ∧ node_kind nd = RenderSetup.
Proof.
  unfold render_setup_of. intros H%head_Some_elem_of.
  apply list_elem_of_fmap in H as ([k nd] & -> & Hin).
  apply list_elem_of_filter in Hin as [Hk%bool_decide_unpack Hin].
  apply elem_of_map_to_list in Hin. by exists nd.
Qed.

(** Once [renderSetup.instance()] has run, the scene has its render setup
    node. *)
Lemma render_setup_lookup s :
  ∃ nd, nodes (with_render_setup s) !! render_setup_id s = Some nd ∧
        node_kind nd = RenderSetup.
Proof.
  unfold with_render_setup, render_setup_id.
  destruct (render_setup_of s) as [rs|] eqn:H.
  - by apply render_setup_of_Some.
  - eexists. split; [apply lookup_insert_eq | done].
Qed.

Lemma with_render_setup_old s k nd :
  nodes s !! k = Some nd → nodes (with_render_setup s) !! k = Some nd.
Proof.
  intros Hk. unfold with_render_setup. destruct (render_setup_of s); [done|].
  assert (k < fresh_id s)%nat by (apply fresh_id_above; eauto).
  simpl. by rewrite lookup_insert_ne by lia.
Qed.

Lemma renderSetup_instance_run w :
  renderSetup_instance w =
  (Ok (render_setup_id (scene w)), with_scene (with_render_setup (scene w)) w).
Proof.
  unfold renderSetup_instance, bind, get_scene, render_setup_id, with_render_setup.
  destruct (render_setup_of (scene w)); [|done].
  unfold ret. by rewrite with_scene_id.
Qed.

Lemma next_id_insert_new nd s : next_id (insert_new nd s) = S (fresh_id s).
Proof. done. Qed.

Lemma next_id_set_selection l s : next_id (set_selection l s) = next_id s.
Proof. done. Qed.

Lemma next_id_set_connections c s : next_id (set_connections c s) = next_id s.
Proof. done. Qed.

Lemma next_id_set_visible_layer l s : next_id (set_visible_layer l s) = next_id s.
Proof. done. Qed.

Lemma next_id_set_nodes f s : next_id (set_nodes f s) = next_id s.
Proof. done. Qed.

(** Two scenes with the same fields are the same scene. *)
Lemma scene_ext s s' :
  nodes s = nodes s' → next_id s = next_id s' →
  connections s = connections s' → selection s = selection s' →
  visible_layer s = visible_layer s' →
  playback_min s = playback_min s' → playback_max s = playback_max s' →
  s = s'.
Proof. destruct s, s'; simpl; intros; by subst. Qed.

Create Rewrite HintDb scene.

#[local] Hint Rewrite scene_with_scene with_scene_with_scene
  fresh_id_set_selection fresh_id_set_connections fresh_id_set_visible_layer
  fresh_id_alter fresh_id_insert_new nodes_set_selection nodes_set_connections
  nodes_set_visible_layer nodes_set_nodes nodes_insert_new_eq
  next_id_insert_new next_id_set_selection next_id_set_connections
  next_id_set_visible_layer next_id_set_nodes : scene.

(** Looks a node up in a scene built by the commands above. *)
Ltac lookup_new :=
  repeat match goal with x := _ |- _ => subst x end;
  autorewrite with scene; cbn [fst snd];
  repeat first [ rewrite lookup_insert_eq
               | rewrite lookup_insert_ne by lia
               | rewrite lookup_alter_eq
               | rewrite lookup_alter_ne by lia ];
  simpl; try done; try (eexists; reflexivity).

(** Runs the first command of a sequence with its run lemma. *)
Ltac step lem :=
  unfold bind at 1; erewrite lem; [autorewrite with scene | lookup_new ..].

Lemma shaded_scene_lookup s :
  nodes (shaded_scene s) !! S (fresh_id s)
  = Some (mkNode (Depend ShadingEngine) "intersections_backgroundSG" ∅ ∅) ∧
  nodes (shaded_scene s) !! fresh_id s
  = Some (mkNode (Depend UseBackground) "intersections_background" ∅ ∅).
Proof.
  unfold shaded_scene. cbn [nodes]. split.
  - apply lookup_insert_eq.
  - rewrite lookup_insert_ne by lia. apply lookup_insert_eq.
Qed.

(** [create_material_override] always returns, with the handles of the
    shader, the shading group and the layer. *)
Lemma create_material_override_run w :
  create_material_override w =
  (Ok (override_handles (scene w)), with_scene (override_scene (scene w)) w).
Proof.
  unfold create_material_override, shadingNode, sets, setFilterType, setPattern.
  unfold override_handles, override_scene.
  set (n := fresh_id (scene w)).
  step create_depend_run. fold n.
  step create_depend_run. fold n.
  step connectAttr_run. fold n.
  match goal with
  | |- context [with_scene ?s w] =>
      replace s with (shaded_scene (scene w));
      [|subst n; apply scene_ext; autorewrite with scene; reflexivity]
  end.
  unfold bind at 1. rewrite renderSetup_instance_run. autorewrite with scene.
  destruct (render_setup_lookup (shaded_scene (scene w))) as (ndr & Hrs & Hkr).
  destruct (shaded_scene_lookup (scene w)) as [Hsg _].
  apply with_render_setup_old in Hsg. fold n in Hsg.
  assert (render_setup_id (shaded_scene (scene w))
          < fresh_id (with_render_setup (shaded_scene (scene w))))%nat as Hlt
    by (apply fresh_id_above; eauto).
  assert (S n < fresh_id (with_render_setup (shaded_scene (scene w))))%nat as Hlt'
    by (apply fresh_id_above; eauto).
  generalize dependent (render_setup_id (shaded_scene (scene w))).
  generalize dependent (with_render_setup (shaded_scene (scene w))).
  intros s2 Hsg Hlt' rs Hrs Hlt. clearbody n.
  set (l := fresh_id s2).
  step createRenderLayer_run. fold l.
  step createCollection_layer_run. fold l.
  step getSelector_run.
  step setAttr_run.
  step getSelector_run.
  step setAttr_run.
  step createCollection_nested_run. fold l.
  step getSelector_run.
  step setAttr_run.
  step getSelector_run.
  step setAttr_run.
  step createOverride_run. fold l.
  step connectAttr_run.
  step switchToLayer_run.
  unfold ret.
  match goal with
  | |- (_, with_scene ?s _) = _ =>
      replace s with (layered_scene (S n) s2); [done|]
  end.
  subst l. apply scene_ext.
  - autorewrite with scene. unfold layered_scene. cbn [nodes].
    rewrite !alter_insert_eq. reflexivity.
  - autorewrite with scene. reflexivity.
  - reflexivity.
  - reflexivity.
  - reflexivity.
  - reflexivity.
  - reflexivity.
Qed.

Lemma shaded_scene_old (s : Scene) (k : nat) (nd : Node) :
  nodes s !! k = Some nd → nodes (shaded_scene s) !! k = Some nd.
Proof.
  intros Hk. assert (k < fresh_id s)%nat by (apply fresh_id_above; eauto).
  unfold shaded_scene. cbn [nodes]. by rewrite !lookup_insert_ne by lia.
Qed.

Lemma layered_scene_old (sg : nat) (s : Scene) (k : nat) (nd : Node) :
  nodes s !! k = Some nd → nodes (layered_scene sg s) !! k = Some nd.
Proof.
  intros Hk. assert (k < fresh_id s)%nat by (apply fresh_id_above; eauto).
  unfold layered_scene. cbn [nodes]. by rewrite !lookup_insert_ne by lia.
Qed.

(** [create_material_override] keeps the nodes that are there. *)
Lemma override_scene_old (s : Scene) (k : nat) (nd : Node) :
  nodes s !! k = Some nd → nodes (override_scene s) !! k = Some nd.
Proof.
  intros Hk. unfold override_scene.
  by apply layered_scene_old, with_render_setup_old, shaded_scene_old.
Qed.


End MaterialOverride.

(** ** Pixel arithmetic *)

Section PixelSums.

Lemma fold_left_add (row : list Z) (a : Z) :
  fold_left Z.add row a = a + foldr Z.add 0 row.
Proof.
  revert a. induction row as [|v row IH]; intros a; simpl; [lia|].
  rewrite IH. lia.
Qed.

Lemma sum_foldr (row : list Z) : sum row = foldr Z.add 0 row.
Proof. unfold sum. by rewrite fold_left_add. Qed.

Lemma foldr_add_app (l k : list Z) :
  foldr Z.add 0 (l ++ k) = foldr Z.add 0 l + foldr Z.add 0 k.
Proof. induction l as [|v l IH]; simpl; lia. Qed.

Lemma values_count_total (rows : list (list Z)) (a : Q) :
  (fold_left (λ acc row, acc + inject_Z (sum row)) rows a
   == a + inject_Z (foldr Z.add 0%Z (concat rows)))%Q.
Proof.
  revert a. induction rows as [|row rows IH]; intros a; simpl.
  - change (inject_Z 0) with 0%Q. ring.
  - rewrite IH, foldr_add_app, sum_foldr, inject_Z_plus. ring.
Qed.

Lemma row_bounds (row : list Z) :
  forallb (λ v, (0 <=? v) && (v <=? 255)) row = true →
  0 ≤ foldr Z.add 0 row ≤ 255 * Z.of_nat (length row).
Proof.
  induction row as [|v row IH]; simpl; [lia|].
  intros [Hv Hrow]%andb_prop. specialize (IH Hrow). lia.
Qed.

Lemma row_zero (row : list Z) :
  forallb (λ v, (0 <=? v) && (v <=? 255)) row = true →
  foldr Z.add 0 row = 0 ↔ Forall (λ v, v = 0) row.
Proof.
  induction row as [|v row IH]; simpl.
  - intros _. split; [constructor | done].
  - intros [Hv Hrow]%andb_prop. specialize (IH Hrow).
    pose proof (row_bounds row Hrow). split.
    + intros Hs. constructor; [lia | apply IH; lia].
    + intros Hz. inversion Hz as [|? ? Hv0 Hz']; subst. apply IH in Hz'. lia.
Qed.

Lemma rows_bounds (width : Z) (rows : list (list Z)) :
  forallb (row_ok width) rows = true →
  0 ≤ foldr Z.add 0 (concat rows) ≤ 255 * (4 * width) * Z.of_nat (length rows).
Proof.
  induction rows as [|row rows IH]; simpl; [lia|].
  intros [[Hlen%Z.eqb_eq Hrow]%andb_prop Hrows]%andb_prop. specialize (IH Hrows).
  rewrite foldr_add_app. pose proof (row_bounds row Hrow). lia.
Qed.

Lemma rows_zero (width : Z) (rows : list (list Z)) :
  forallb (row_ok width) rows = true →
  foldr Z.add 0 (concat rows) = 0 ↔ Forall (Forall (λ v, v = 0)) rows.
Proof.
  induction rows as [|row rows IH]; simpl.
  - intros _. split; [constructor | done].
  - intros [[Hlen Hrow]%andb_prop Hrows]%andb_prop. specialize (IH Hrows).
    rewrite foldr_add_app.
    pose proof (row_bounds row Hrow). pose proof (rows_bounds width rows Hrows) as Hb.
    assert (0 ≤ width ∨ rows = []) as Hw.
    { destruct rows; [by right | left]. simpl in Hrows.
      apply andb_prop in Hrows as [[Hl%Z.eqb_eq _]%andb_prop _]. lia. }
    assert (0 ≤ foldr Z.add 0 (concat rows)) as Hnn.
    { destruct Hw as [Hw | ->]; simpl; lia. }
    split.
    + intros Hs. constructor; [apply row_zero; [done | lia] | apply IH; lia].
    + intros Hz. inversion Hz as [|? ? Hz1 Hz2]; subst.
      apply row_zero in Hz1; [|done]. apply IH in Hz2. lia.
Qed.

End PixelSums.

(** ** [get_white_coverage] *)

Section WhiteCoverage.

Lemma get_white_coverage_run (p : string) (w : World) (img : Png) :
  fs w !! p = Some (File img) →
  get_white_coverage p w =
    (if png_width img * png_height img * 4 * 255 =? 0
     then Raise ZeroDivisionError
     else Ok (float_div (fold_left (λ acc row, acc + inject_Z (sum row))%Q
                                   (png_rows img) 0%Q)
                        (inject_Z (png_width img * png_height img * 4 * 255))),
     w).
Proof.
  intros Hp. unfold get_white_coverage, png_read, bind, get_fs. rewrite Hp.
  cbn. by destruct (_ =? 0).
Qed.

(** Reading never changes the world, whatever the outcome. *)
Lemma get_white_coverage_world (p : string) (w : World) :
  (get_white_coverage p w).2 = w.
Proof.
  unfold get_white_coverage, png_read, bind, get_fs.
  destruct (fs w !! p) as [[names|img]|]; cbn; try done.
  by destruct (_ =? 0).
Qed.

(** The value returned on data with at least one pixel: the float nearest
    to the quotient of the sum of all channel values. *)
Lemma get_white_coverage_value (p : string) (w : World) (img : Png) :
  fs w !! p = Some (File img) →
  png_width img * png_height img ≠ 0 →
  get_white_coverage p w =
  (Ok (float_round (inject_Z (foldr Z.add 0%Z (concat (png_rows img)))
                    / inject_Z (png_width img * png_height img * 4 * 255))), w).
Proof.
  intros Hp Hn. rewrite (get_white_coverage_run p w img Hp).
  destruct (Z.eqb_spec (png_width img * png_height img * 4 * 255) 0) as [H0|_];
    [lia|].
  do 2 f_equal. apply float_round_proper.
  by rewrite values_count_total, Qplus_0_l.
Qed.

(** C2: for a PNG with at least one pixel, the value returned is the sum of
    all channel values over every row of the decoded data divided by
    [width * height * 4 * 255], the division being the division of
    floats: the result is the float nearest to the exact quotient, within
    a relative error of [2 ^ -53] of it. *)
Theorem get_white_coverage_pixel_sums (p : string) (w : World) (img : Png) :
  fs w !! p = Some (File img) →
  png_width img * png_height img ≠ 0 →
  ∃ q, get_white_coverage p w = (Ok q, w) ∧
       q = float_div (inject_Z (channel_total img))
                     (inject_Z (png_width img * png_height img * 4 * 255)) ∧
       (rgba8 img = true →
        let exact := (inject_Z (channel_total img)
                      / inject_Z (png_width img * png_height img * 4 * 255))%Q in
        (exact * (1 - (1 # 2 ^ 53)) <= q <= exact * (1 + (1 # 2 ^ 53)))%Q).
Proof.
  intros Hp Hn. rewrite (get_white_coverage_value p w img Hp Hn).
  eexists. split; [done|]. split; [done|].
  intros Hrgba exact. apply float_round_error.
  unfold rgba8 in Hrgba.
  apply andb_prop in Hrgba as [[[Hw%Z.leb_le Hh%Z.leb_le]%andb_prop
                                 Hlen%Z.eqb_eq]%andb_prop Hrows].
  pose proof (rows_bounds _ _ Hrows) as Hb.
  apply Qle_shift_div_l.
  - change 0%Q with (inject_Z 0). rewrite <- Zlt_Qlt. lia.
  - rewrite Qmult_0_l. change 0%Q with (inject_Z 0). rewrite <- Zle_Qle.
    unfold channel_total. lia.
Qed.

Lemma get_white_coverage_pixel_sums_witness :
  ∃ q, get_white_coverage "/tmp/sparse.png" sparse_world = (Ok q, sparse_world) ∧
       q = float_div (inject_Z (channel_total sparse_image))
                     (inject_Z (png_width sparse_image * png_height sparse_image
                                * 4 * 255)) ∧
       (rgba8 sparse_image = true →
        let exact := (inject_Z (channel_total sparse_image)
                      / inject_Z (png_width sparse_image * png_height sparse_image
                                  * 4 * 255))%Q in
        (exact * (1 - (1 # 2 ^ 53)) <= q <= exact * (1 + (1 # 2 ^ 53)))%Q).
Proof.
  apply (get_white_coverage_pixel_sums "/tmp/sparse.png" sparse_world sparse_image).
  - reflexivity.
  - simpl. lia.
Defined.

Lemma Qdiv_unit_interval (n d : Z) :
  0 ≤ n ≤ d → 0 < d → (0 <= inject_Z n / inject_Z d <= 1)%Q.
Proof.
  intros [Hn Hd] Hpos.
  assert (0 < inject_Z d)%Q as Hd'.
  { change 0%Q with (inject_Z 0). by rewrite <- Zlt_Qlt. }
  split.
  - apply Qle_shift_div_l; [done|]. rewrite Qmult_0_l.
    change 0%Q with (inject_Z 0). by rewrite <- Zle_Qle.
  - apply Qle_shift_div_r; [done|]. rewrite Qmult_1_l.
    by rewrite <- Zle_Qle.
Qed.

Lemma Qdiv_zero (n d : Z) :
  d ≠ 0 → (inject_Z n / inject_Z d == 0)%Q ↔ n = 0.
Proof.
  intros Hd. unfold Qdiv, Qeq, Qmult, Qinv. destruct d as [|d|d]; [done| |]; simpl; lia.
Qed.

(** C8: on 8-bit RGBA data with at least one pixel the result lies in
    [0, 1] and is 0 exactly when every channel value is 0; on data with no
    pixel the division raises [ZeroDivisionError]. *)
Theorem get_white_coverage_range (p : string) (w : World) (img : Png) :
  fs w !! p = Some (File img) →
  rgba8 img = true →
  (0 < png_width img * png_height img →
   ∃ q, get_white_coverage p w = (Ok q, w) ∧
        (0 <= q <= 1)%Q ∧ ((q == 0)%Q ↔ all_zero img)) ∧
  (png_width img * png_height img = 0 →
   get_white_coverage p w = (Raise ZeroDivisionError, w)).
Proof.
  intros Hp Hrgba. rewrite (get_white_coverage_run p w img Hp).
  unfold rgba8 in Hrgba.
  apply andb_prop in Hrgba as [[[Hw%Z.leb_le Hh%Z.leb_le]%andb_prop
                                 Hlen%Z.eqb_eq]%andb_prop Hrows].
  pose proof (rows_bounds _ _ Hrows) as Hb.
  pose proof (rows_zero _ _ Hrows) as Hz.
  split.
  - intros Hpos.
    destruct (Z.eqb_spec (png_width img * png_height img * 4 * 255) 0) as [H0|Hne];
      [lia|].
    eexists. split; [done|]. unfold float_div.
    assert (fold_left (λ acc row, acc + inject_Z (sum row)) (png_rows img) 0
            / inject_Z (png_width img * png_height img * 4 * 255)
            == inject_Z (foldr Z.add 0%Z (concat (png_rows img)))
               / inject_Z (png_width img * png_height img * 4 * 255))%Q as Heq.
    { by rewrite values_count_total, Qplus_0_l. }
    rewrite (float_round_proper _ _ Heq).
    assert (0 <= inject_Z (foldr Z.add 0%Z (concat (png_rows img)))
                 / inject_Z (png_width img * png_height img * 4 * 255) <= 1)%Q
      as Hunit by (apply Qdiv_unit_interval; lia).
    split.
    + by apply float_round_unit.
    + rewrite float_round_zero by apply Hunit. rewrite Qdiv_zero by done. apply Hz.
  - intros H0. by rewrite H0.
Qed.

Lemma get_white_coverage_range_witness :
  (0 < png_width black_white * png_height black_white →
   ∃ q, get_white_coverage "/tmp/bw.png"
          bw_world
        = (Ok q, bw_world) ∧
        (0 <= q <= 1)%Q ∧ ((q == 0)%Q ↔ all_zero black_white)) ∧
  (png_width black_white * png_height black_white = 0 →
   get_white_coverage "/tmp/bw.png"
     bw_world
   = (Raise ZeroDivisionError,
      bw_world)).
Proof.
  apply (get_white_coverage_range "/tmp/bw.png" _ black_white); reflexivity.
Defined.

(** C1, at a single opaque red pixel: the docstring's fraction of
    non-black pixels is 1, and the function returns one half. *)
Theorem get_white_coverage_red_pixel :
  ∃ q, get_white_coverage "/tmp/red.png"
         red_world
       = (Ok q, red_world) ∧
       (q == 1 # 2)%Q ∧ (nonblack_fraction red_pixel == 1)%Q ∧
       rgba8 red_pixel = true.
Proof. eexists. split; [reflexivity|]. by vm_compute. Qed.

End WhiteCoverage.

(** ** More on [get_white_coverage] *)

Section WhiteAndBlack.

Lemma white_row_total (row : list Z) :
  white_row row → foldr Z.add 0 row = 255 * Z.of_nat (length row).
Proof.
  unfold white_row. induction 1 as [|v row Hv Hrow IH]; simpl; [done|].
  subst v. lia.
Qed.

Lemma white_rows_total (width : Z) (rows : list (list Z)) :
  Forall white_row rows →
  Forall (λ row, Z.of_nat (length row) = 4 * width) rows →
  foldr Z.add 0 (concat rows) = 255 * (4 * width) * Z.of_nat (length rows).
Proof.
  induction 1 as [|row rows Hrow Hrows IH]; intros Hlen; simpl; [lia|].
  inversion Hlen as [|? ? Hl Hlen']; subst.
  rewrite foldr_add_app, (white_row_total row Hrow), IH by done. lia.
Qed.

Lemma rgba8_fields (img : Png) :
  rgba8 img = true →
  0 ≤ png_width img ∧ 0 ≤ png_height img ∧
  Z.of_nat (length (png_rows img)) = png_height img ∧
  Forall (λ row, Z.of_nat (length row) = 4 * png_width img) (png_rows img).
Proof.
  unfold rgba8. intros H.
  apply andb_prop in H as [[[Hw%Z.leb_le Hh%Z.leb_le]%andb_prop
                             Hlen%Z.eqb_eq]%andb_prop Hrows].
  repeat split; try done.
  apply Forall_forall. intros row Hin.
  rewrite forallb_forall in Hrows. apply list_elem_of_In, Hrows in Hin.
  by apply andb_prop in Hin as [?%Z.eqb_eq _].
Qed.

Lemma Qdiv_same (d : Z) : d ≠ 0 → (inject_Z d / inject_Z d == 1)%Q.
Proof.
  intros Hd. apply Qmult_inv_r. unfold Qeq. simpl. lia.
Qed.

(** X1: a fully white 8-bit RGBA image, alpha included, has coverage
    exactly 1, whatever its size. *)
Theorem get_white_coverage_full_white (p : string) (w : World) (img : Png) :
  fs w !! p = Some (File img) →
  rgba8 img = true →
  0 < png_width img * png_height img →
  Forall white_row (png_rows img) →
  ∃ q, get_white_coverage p w = (Ok q, w) ∧ (q == 1)%Q.
Proof.
  intros Hp Hrgba Hpos Hwhite.
  destruct (rgba8_fields img Hrgba) as (Hw & Hh & Hlen & Hrows).
  rewrite (get_white_coverage_value p w img Hp) by lia.
  eexists. split; [done|].
  rewrite (white_rows_total (png_width img)) by done. rewrite Hlen.
  replace (255 * (4 * png_width img) * png_height img)
    with (png_width img * png_height img * 4 * 255) by lia.
  rewrite (float_round_proper _ 1); [done|]. apply Qdiv_same. lia.
Qed.

Lemma get_white_coverage_full_white_witness :
  ∃ q, get_white_coverage "/tmp/white.png" white_world = (Ok q, white_world) ∧
       (q == 1)%Q.
Proof.
  apply (get_white_coverage_full_white "/tmp/white.png" white_world white_image).
  - reflexivity.
  - reflexivity.
  - reflexivity.
  - repeat constructor.
Defined.

Lemma opaque_black_row_total (n : nat) (row : list Z) :
  (length row ≤ n)%nat → opaque_black_row row →
  4 * foldr Z.add 0 row = 255 * Z.of_nat (length row).
Proof.
  revert row. induction n as [|n IH]; intros row Hlen Hrow.
  - destruct row; [done | simpl in Hlen; lia].
  - destruct row as [|r [|g [|b [|a rest]]]]; try done.
    destruct Hrow as (-> & -> & -> & -> & Hrest).
    simpl in Hlen. assert (length rest ≤ n)%nat as Hle by lia.
    specialize (IH rest Hle Hrest). simpl. lia.
Qed.

Lemma opaque_black_rows_total (width : Z) (rows : list (list Z)) :
  Forall opaque_black_row rows →
  Forall (λ row, Z.of_nat (length row) = 4 * width) rows →
  foldr Z.add 0 (concat rows) = 255 * width * Z.of_nat (length rows).
Proof.
  induction 1 as [|row rows Hrow Hrows IH]; intros Hlen; simpl; [lia|].
  inversion Hlen as [|? ? Hl Hlen']; subst.
  rewrite foldr_add_app, IH by done.
  pose proof (opaque_black_row_total (length row) row (le_n _) Hrow). lia.
Qed.

Lemma Qdiv_quarter (d : Z) : d ≠ 0 → (inject_Z d / inject_Z (d * 4) == 1 # 4)%Q.
Proof.
  intros Hd. unfold Qdiv, Qeq, Qmult, Qinv.
  destruct d as [|d|d]; [done| |]; simpl; lia.
Qed.

(** X2: the alpha channel counts as a colour channel: an 8-bit RGBA image
    whose pixels are all black and opaque has coverage one quarter, not
    0. *)
Theorem get_white_coverage_opaque_black (p : string) (w : World) (img : Png) :
  fs w !! p = Some (File img) →
  rgba8 img = true →
  0 < png_width img * png_height img →
  Forall opaque_black_row (png_rows img) →
  ∃ q, get_white_coverage p w = (Ok q, w) ∧ (q == 1 # 4)%Q.
Proof.
  intros Hp Hrgba Hpos Hblack.
  destruct (rgba8_fields img Hrgba) as (Hw & Hh & Hlen & Hrows).
  rewrite (get_white_coverage_value p w img Hp) by lia.
  eexists. split; [done|].
  rewrite (opaque_black_rows_total (png_width img)) by done. rewrite Hlen.
  replace (png_width img * png_height img * 4 * 255)
    with (255 * png_width img * png_height img * 4) by lia.
  rewrite (float_round_proper _ (1 # 4)); [done|]. apply Qdiv_quarter. lia.
Qed.

Lemma get_white_coverage_opaque_black_witness :
  ∃ q, get_white_coverage "/tmp/black.png" black_world = (Ok q, black_world) ∧
       (q == 1 # 4)%Q.
Proof.
  apply (get_white_coverage_opaque_black "/tmp/black.png" black_world
           opaque_black_image).
  - reflexivity.
  - reflexivity.
  - reflexivity.
  - repeat constructor.
Defined.

(** A path that names no file, or names a directory, makes
    [get_white_coverage] raise [IOError] and leaves the world as it was. *)
Theorem get_white_coverage_no_file (p : string) (w : World) :
  (∀ img, fs w !! p ≠ Some (File img)) →
  get_white_coverage p w = (Raise IOError, w).
Proof.
  intros Hp. unfold get_white_coverage, png_read, bind, get_fs.
  destruct (fs w !! p) as [[names|img]|] eqn:H; try done.
  by destruct (Hp img).
Qed.

Lemma get_white_coverage_no_file_witness :
  get_white_coverage "/tmp" demo_world = (Raise IOError, demo_world).
Proof. apply (get_white_coverage_no_file "/tmp" demo_world). by vm_compute. Defined.

End WhiteAndBlack.

(** ** [capture_frames] *)

Section CaptureFrames.

Variable capture : CaptureOptions → M unit.

Lemma capture_frames_eval (camera : option string) (sf ef : option Q) (w : World) :
  capture_frames capture camera sf ef w =
  match fs w !! temp_directory w with
  | Some _ => (Raise OSError, w)
  | None =>
      bind (capture
              {| opt_camera := resolve_camera camera;
                 opt_format := "image";
                 opt_compression := "png";
                 opt_width := 40;
                 opt_start_frame := sf;
                 opt_end_frame := ef;
                 opt_filename := path_join (temp_directory w) "temp";
                 opt_viewer := false;
                 opt_viewport_options :=
                   [("strokes", true); ("headsUpDisplay", false);
                    ("imagePlane", false)];
                 opt_displayGradient := false;
                 opt_background := (0, 0, 0) |})
           (λ _, ret (temp_directory w)) (ready_world w)
  end.
Proof.
  unfold capture_frames, gettempdir, hash_os_times, makedirs, select_clear.
  unfold bind at 1. unfold bind at 1. unfold bind at 1. unfold bind at 1.
  unfold get_fs. fold (temp_directory w).
  destruct (fs w !! temp_directory w) as [e|] eqn:Hdir; [done|].
  unfold put_fs. unfold bind at 1. unfold bind at 1. unfold get_scene, put_scene.
  unfold bind at 1.
  destruct camera as [c|]; simpl; [|done].
  unfold resolve_camera. by destruct (falsy_str c).
Qed.

(** X3: when the temporary directory is already there, [capture_frames]
    raises [OSError]; the world is left as it was and the capture helper
    plays no part. *)
Theorem capture_frames_existing_directory
    (camera : option string) (sf ef : option Q) (w : World) :
  is_Some (fs w !! temp_directory w) →
  capture_frames capture camera sf ef w = (Raise OSError, w).
Proof.
  intros [e He]. by rewrite capture_frames_eval, He.
Qed.

(** X4: otherwise the helper is run once, on the world in which the
    directory exists and is empty and nothing is selected, with the camera
    defaulting to "persp", 40 pixels of width, PNG images and a file name
    inside the directory; [capture_frames] returns the directory when the
    helper returns, and passes on what the helper raises. *)
Theorem capture_frames_runs_helper
    (camera : option string) (sf ef : option Q) (w : World) :
  fs w !! temp_directory w = None →
  ∃ o,
    capture_frames capture camera sf ef w =
      bind (capture o) (λ _, ret (temp_directory w)) (ready_world w) ∧
    fs (ready_world w) !! temp_directory w = Some (Dir []) ∧
    selection (scene (ready_world w)) = [] ∧
    nodes (scene (ready_world w)) = nodes (scene w) ∧
    opt_camera o = resolve_camera camera ∧
    opt_width o = 40 ∧ opt_format o = "image" ∧ opt_compression o = "png" ∧
    opt_start_frame o = sf ∧ opt_end_frame o = ef ∧
    opt_filename o = path_join (temp_directory w) "temp" ∧
    opt_background o = (0, 0, 0).
Proof.
  intros Hdir. eexists. rewrite capture_frames_eval, Hdir.
  split; [reflexivity|]. simpl. rewrite lookup_insert_eq. done.
Qed.

End CaptureFrames.

Lemma capture_frames_existing_directory_witness :
  capture_frames (write_frames two_frames) None None None busy_world
  = (Raise OSError, busy_world).
Proof.
  apply (capture_frames_existing_directory (write_frames two_frames)
           None None None busy_world).
  vm_compute. eauto.
Defined.

Lemma capture_frames_runs_helper_witness :
  ∃ o,
    capture_frames (write_frames two_frames) None (Some 1%Q) None demo_world =
      bind (write_frames two_frames o) (λ _, ret (temp_directory demo_world))
           (ready_world demo_world) ∧
    fs (ready_world demo_world) !! temp_directory demo_world = Some (Dir []) ∧
    selection (scene (ready_world demo_world)) = [] ∧
    nodes (scene (ready_world demo_world)) = nodes (scene demo_world) ∧
    opt_camera o = resolve_camera None ∧
    opt_width o = 40 ∧ opt_format o = "image" ∧ opt_compression o = "png" ∧
    opt_start_frame o = Some 1%Q ∧ opt_end_frame o = None ∧
    opt_filename o = path_join (temp_directory demo_world) "temp" ∧
    opt_background o = (0, 0, 0).
Proof.
  apply (capture_frames_runs_helper (write_frames two_frames)
           None (Some 1%Q) None demo_world).
  vm_compute. reflexivity.
Defined.

(** ** [get_coverage] *)

Section Bind.

Context {A B : Type}.

Lemma bind_Raise_inv (m : M A) (k : A → M B) w e w' :
  bind m k w = (Raise e, w') →
  m w = (Raise e, w') ∨ ∃ a w1, m w = (Ok a, w1) ∧ k a w1 = (Raise e, w').
Proof.
  unfold bind. destruct (m w) as [[a|e'] w1]; [eauto|].
  intros [= -> ->]. by left.
Qed.

End Bind.

Section CoverageLoop.

Lemma coverage_loop_world dir files fc data w :
  (coverage_loop dir files fc data w).2 = w.
Proof.
  revert fc data. induction files as [|f files IH]; intros fc data; simpl; [done|].
  unfold bind. pose proof (get_white_coverage_world (path_join dir f) w) as Hw.
  destruct (get_white_coverage (path_join dir f) w) as [[c|e] w1]; simpl in Hw;
    subst w1; [apply IH | done].
Qed.

(** Counting up from a whole number stays exact as long as the count
    stays below [2 ^ 53]. *)
Lemma frame_after_integer (i : nat) (start : Q) (z : Z) :
  (start == inject_Z z)%Q → - 2 ^ 53 < z → z + Z.of_nat i < 2 ^ 53 →
  (frame_after i start == inject_Z (z + Z.of_nat i))%Q.
Proof.
  intros Hs Hlo. induction i as [|i IH]; intros Hhi.
  - simpl. by rewrite Z.add_0_r.
  - unfold frame_after in *. rewrite Nat.iter_succ. unfold float_add at 1.
    rewrite (float_round_proper _ (inject_Z (z + Z.of_nat (S i)))).
    + apply float_round_integer. lia.
    + rewrite IH by lia. rewrite Nat2Z.inj_succ, <- Z.add_1_r, Z.add_assoc.
      rewrite (inject_Z_plus _ 1). reflexivity.
Qed.

(** What the loop over the files appends: one pair per file, in the order
    of the listing, with the frame counted up from [fc]. *)
Lemma coverage_loop_inv dir files fc data w result w' :
  coverage_loop dir files fc data w = (Ok result, w') →
  w' = w ∧
  ∃ new, result = data ++ new ∧ length new = length files ∧
    ∀ i f, files !! i = Some f →
      ∃ c, new !! i = Some (frame_after i fc, c) ∧
           get_white_coverage (path_join dir f) w = (Ok c, w).
Proof.
  intros Hrun. split.
  { pose proof (coverage_loop_world dir files fc data w) as Hw.
    by rewrite Hrun in Hw. }
  revert fc data Hrun. induction files as [|f files IH]; intros fc data; simpl.
  - intros [= <- _]. exists []. rewrite app_nil_r. by split.
  - intros Hrun. bind_inv Hrun c w1 Hc.
    pose proof (get_white_coverage_world (path_join dir f) w) as Hw.
    rewrite Hc in Hw. simpl in Hw. subst w1.
    apply IH in Hrun as (new & -> & Hlen & Hnew).
    exists ((fc, c) :: new). rewrite <- app_assoc. split; [done|].
    split; [simpl; by rewrite Hlen|].
    intros [|i] f' Hi; simpl in Hi.
    + injection Hi as <-. by exists c.
    + destruct (Hnew i f' Hi) as (c' & Hl & Hf).
      exists c'. split; [|done].
      change (new !! i = Some (frame_after (S i) fc, c')). rewrite Hl.
      do 2 f_equal. unfold frame_after. by rewrite Nat.iter_succ_r.
Qed.

(** The loop raises what the first failing file raises, and nothing is
    changed. *)
Lemma coverage_loop_Raise_inv dir files fc data w e w' :
  coverage_loop dir files fc data w = (Raise e, w') →
  w' = w ∧ ∃ f, f ∈ files ∧ get_white_coverage (path_join dir f) w = (Raise e, w).
Proof.
  intros Hrun. split.
  { pose proof (coverage_loop_world dir files fc data w) as Hw.
    by rewrite Hrun in Hw. }
  revert fc data Hrun. induction files as [|f files IH]; intros fc data; simpl;
    [done|].
  intros Hrun. pose proof (get_white_coverage_world (path_join dir f) w) as Hw.
  apply bind_Raise_inv in Hrun as [Hf | (c & w1 & Hc & Hrest)].
  - rewrite Hf in Hw. simpl in Hw. subst w'. exists f. split; [by left | done].
  - rewrite Hc in Hw. simpl in Hw. subst w1.
    apply IH in Hrest as (f' & Hin & Hf'). exists f'. split; [by right | done].
Qed.

End CoverageLoop.

Section GetCoverage.

Variable capture : CaptureOptions → M unit.

Lemma delete_eval (n : nat) (w : World) :
  delete (Some n) w =
  match nodes (scene w) !! n with
  | Some _ => (Ok tt, with_scene (remove_node n (scene w)) w)
  | None => (Raise MayaNodeError, w)
  end.
Proof.
  unfold delete, bind, get_scene. by destruct (nodes (scene w) !! n).
Qed.

Lemma renderLayer_delete_eval (l : nat) (w : World) :
  renderLayer_delete l w =
  match nodes (scene w) !! l with
  | Some nd =>
      match node_kind nd with
      | RenderLayer => (Ok tt, with_scene (remove_node l (scene w)) w)
      | _ => (Raise TypeError, w)
      end
  | None => (Raise MayaNodeError, w)
  end.
Proof.
  unfold renderLayer_delete, kind_of, bind, get_scene.
  destruct (nodes (scene w) !! l) as [nd|]; [|done].
  by destruct (node_kind nd).
Qed.

(** Whenever [delete_node] returns, the node was live and is removed with
    what goes with it. *)
Lemma delete_node_inv (h : Handle) (w w' : World) u :
  delete_node h w = (Ok u, w') →
  is_Some (nodes (scene w) !! handle_id h) ∧
  w' = with_scene (remove_node (handle_id h) (scene w)) w.
Proof.
  destruct h as [n|l]; unfold delete_node; cbn [handle_id].
  - rewrite delete_eval. destruct (nodes (scene w) !! n); [|done].
    intros [= _ <-]. eauto.
  - rewrite renderLayer_delete_eval.
    destruct (nodes (scene w) !! l) as [nd|]; [|done].
    destruct (node_kind nd); try done. intros [= _ <-]. eauto.
Qed.

Lemma get_coverage_eval camera sf ef delete_pfx (w : World) :
  let s := resolve_frame sf (playback_min (scene w)) in
  let e := resolve_frame ef (playback_max (scene w)) in
  get_coverage capture camera sf ef delete_pfx w =
  bind (apply_pfxtoon (Some (shapes_of Mesh (scene w)))) (λ pfx_pair,
  bind create_material_override (λ render_layer_nodes,
  bind (capture_frames capture (Some (resolve_camera camera)) (Some s) (Some e))
       (λ capture_directory,
  bind (listdir capture_directory) (λ files,
  bind (coverage_loop capture_directory files s []) (λ data,
  bind (rmtree capture_directory) (λ _,
  bind (for_each render_layer_nodes delete_node) (λ _,
  bind (if delete_pfx then delete pfx_pair.1 else ret tt) (λ _,
  ret data)))))))) w.
Proof.
  intros s e. unfold get_coverage.
  assert (py_or falsy_str camera (ret "persp") w = (Ok (resolve_camera camera), w))
    as Hcam.
  { unfold py_or, resolve_camera. destruct camera as [c|]; [|done].
    by destruct (falsy_str c). }
  assert (py_or falsy_num sf playbackOptions_min w = (Ok s, w)) as Hs.
  { unfold py_or, s, resolve_frame. destruct sf as [q|]; [|done].
    by destruct (falsy_num q). }
  assert (py_or falsy_num ef playbackOptions_max w = (Ok e, w)) as He.
  { unfold py_or, e, resolve_frame. destruct ef as [q|]; [|done].
    by destruct (falsy_num q). }
  unfold bind at 1. rewrite Hcam.
  unfold bind at 1. rewrite Hs.
  unfold bind at 1. rewrite He.
  unfold bind at 1. unfold ls at 1. unfold bind at 1. unfold get_scene, ret at 1.
  reflexivity.
Qed.

Lemma listdir_inv (d : string) (w w' : World) files :
  listdir d w = (Ok files, w') → w' = w ∧ fs w !! d = Some (Dir files).
Proof.
  unfold listdir, bind, get_fs.
  destruct (fs w !! d) as [[names|img]|]; try done. by intros [= <- <-].
Qed.

(** Whenever [get_coverage] returns: the phases it went through and the
    world it leaves. *)
Lemma get_coverage_inv camera sf ef delete_pfx (w w' : World) data :
  let s := resolve_frame sf (playback_min (scene w)) in
  let e := resolve_frame ef (playback_max (scene w)) in
  get_coverage capture camera sf ef delete_pfx w = (Ok data, w') →
  ∃ pfx sh w1 dir wc files,
    apply_pfxtoon (Some (shapes_of Mesh (scene w))) w = (Ok (pfx, sh), w1) ∧
    capture_frames capture (Some (resolve_camera camera)) (Some s) (Some e)
      (with_scene (override_scene (scene w1)) w1) = (Ok dir, wc) ∧
    fs wc !! dir = Some (Dir files) ∧
    coverage_loop dir files s [] wc = (Ok data, wc) ∧
    (delete_pfx = true → is_Some pfx) ∧
    w' = with_scene
           (cleaned_scene (override_handles (scene w1)) pfx delete_pfx (scene wc))
           (with_fs (remove_tree dir (fs_busy wc) (fs wc)) wc).
Proof.
  intros s e. rewrite get_coverage_eval. fold s e. intros Hrun.
  bind_inv Hrun pfx_pair w1 Happly. destruct pfx_pair as [pfx sh].
  unfold bind at 1 in Hrun. rewrite create_material_override_run in Hrun.
  bind_inv Hrun dir wc Hcap.
  bind_inv Hrun files wc' Hls. apply listdir_inv in Hls as [-> Hdir].
  bind_inv Hrun data' wc' Hloop.
  pose proof (coverage_loop_inv _ _ _ _ _ _ _ Hloop) as [-> _].
  unfold bind at 1 in Hrun. unfold rmtree at 1 in Hrun.
  unfold bind at 1, bind at 1, get_fs, get_busy, put_fs in Hrun.
  bind_inv Hrun u w5 Hdel. destruct u.
  unfold override_handles in Hdel. cbn [for_each] in Hdel.
  bind_inv Hdel u1 w2 Hd1. apply delete_node_inv in Hd1 as [_ ->].
  bind_inv Hdel u2 w3 Hd2. apply delete_node_inv in Hd2 as [_ ->].
  bind_inv Hdel u3 w4 Hd3. apply delete_node_inv in Hd3 as [_ ->].
  injection Hdel as <-.
  bind_inv Hrun u4 w6 Hpfx. injection Hrun as <- <-.
  exists pfx, sh, w1, dir, wc, files.
  split; [done|]. split; [done|]. split; [done|]. split; [done|].
  cbn [handle_id] in *. unfold cleaned_scene, override_handles.
  cbn [foldl handle_id]. cbn [fst] in Hpfx. destruct delete_pfx.
  - destruct pfx as [t|]; [|by unfold delete, raise in Hpfx].
    split; [eauto|]. rewrite delete_eval in Hpfx.
    destruct (nodes _ !! t); [|done]. injection Hpfx as _ <-. reflexivity.
  - split; [done|]. unfold ret in Hpfx. injection Hpfx as _ <-.
    destruct pfx; reflexivity.
Qed.

(** Whatever its outcome, the loop over the earlier pfx shapes changes
    nothing but the scene, hands out no identifier and adds no node. *)
Lemma delete_loop_frame (l : list nat) (w w' : World) r :
  for_each l delete_if_tagged w = (r, w') →
  w' = with_scene (scene w') w ∧
  nodes (scene w') ⊆ nodes (scene w) ∧
  fresh_id (scene w') = fresh_id (scene w).
Proof.
  revert w. induction l as [|n l IH]; intros w; simpl.
  - intros [= _ <-]. by rewrite with_scene_id.
  - unfold bind at 1. rewrite delete_if_tagged_eval.
    assert (∀ e, (Raise e, w) = (r, w') →
                 w' = with_scene (scene w') w ∧
                 nodes (scene w') ⊆ nodes (scene w) ∧
                 fresh_id (scene w') = fresh_id (scene w)) as Hraise.
    { intros e [= _ <-]. by rewrite with_scene_id. }
    destruct (nodes (scene w) !! n) as [nd|]; [|apply IH].
    destruct (bool_decide (tag ∈ node_dyn nd)); [|apply IH].
    destruct (node_kind nd) as [|ty p| | | | |]; try apply Hraise.
    destruct (nodes (scene w) !! p); [|apply Hraise].
    intros Hrun. apply IH in Hrun as (Hw & Hsub & Hfresh).
    rewrite scene_with_scene in Hsub, Hfresh.
    split; [by rewrite Hw at 1|]. split.
    + etrans; [exact Hsub|]. apply remove_node_subseteq.
    + rewrite Hfresh. apply fresh_id_remove_node.
Qed.

Lemma delete_previous_pfx_frame (w w0 : World) u :
  delete_previous_pfx w = (Ok u, w0) →
  w0 = with_scene (scene w0) w ∧
  nodes (scene w0) ⊆ nodes (scene w) ∧
  fresh_id (scene w0) = fresh_id (scene w).
Proof.
  unfold delete_previous_pfx, ls, bind at 1, bind at 1, get_scene, ret.
  apply delete_loop_frame.
Qed.

Lemma fresh_id_created_pfx (ms : list nat) (s : Scene) :
  fresh_id (created_pfx ms s) = S (S (fresh_id s)).
Proof.
  apply Nat.le_antisymm.
  - apply (fresh_id_le s); [done|]. intros k [nd Hk].
    apply created_pfx_lookup in Hk as [[-> _]|[[-> _]|Hk]]; [lia..|].
    assert (k < fresh_id s)%nat by (apply fresh_id_above; eauto). lia.
  - apply (fresh_id_next (created_pfx ms s)).
Qed.

(** [apply_pfxtoon] changes nothing but the scene, and the transform it
    returns is in the scene it leaves. *)
Lemma apply_pfxtoon_frame meshes (w w1 : World) pfx sh :
  apply_pfxtoon meshes w = (Ok (pfx, sh), w1) →
  w1 = with_scene (scene w1) w ∧
  ∃ t, pfx = Some t ∧ nodes (scene w1) !! t = Some (pfx_transform_node t).
Proof.
  intros Hrun. apply apply_pfxtoon_inv in Hrun as (w0 & Hdel & [= -> ->] & ->).
  apply delete_previous_pfx_frame in Hdel as (Hw0 & _ & _). split.
  - rewrite Hw0 at 2. reflexivity.
  - eexists. split; [done|]. simpl.
    rewrite lookup_insert_ne by lia. apply lookup_insert_eq.
Qed.

Lemma capture_frames_inv camera sf ef (w wc : World) dir :
  capture_frames capture camera sf ef w = (Ok dir, wc) →
  dir = temp_directory w ∧ fs w !! dir = None ∧
  ∃ o, capture o (ready_world w) = (Ok tt, wc).
Proof.
  rewrite capture_frames_eval.
  destruct (fs w !! temp_directory w) eqn:Hdir; [done|].
  intros Hrun. bind_inv Hrun u w3 Hcap. destruct u.
  injection Hrun as <- <-. eauto.
Qed.

(** *** The frames and their coverage *)


(** X5: whenever [get_coverage] returns from a start frame that is a
    whole number, it returns one pair per entry of the listing of the
    capture directory, in the order of the listing: the i-th pair holds
    the resolved start frame plus i and the coverage of the i-th listed
    file. *)
Theorem get_coverage_pairs camera sf ef delete_pfx (w w' : World) data (z : Z) :
  (resolve_frame sf (playback_min (scene w)) == inject_Z z)%Q →
  - 2 ^ 53 < z → z + Z.of_nat (length data) < 2 ^ 53 →
  get_coverage capture camera sf ef delete_pfx w = (Ok data, w') →
  ∃ pfx sh w1 dir wc files,
    apply_pfxtoon (Some (shapes_of Mesh (scene w))) w = (Ok (pfx, sh), w1) ∧
    capture_frames capture (Some (resolve_camera camera))
      (Some (resolve_frame sf (playback_min (scene w))))
      (Some (resolve_frame ef (playback_max (scene w))))
      (with_scene (override_scene (scene w1)) w1) = (Ok dir, wc) ∧
    fs wc !! dir = Some (Dir files) ∧
    length data = length files ∧
    ∀ i f, files !! i = Some f →
      ∃ fr c, data !! i = Some (fr, c) ∧
        (fr == resolve_frame sf (playback_min (scene w))
               + inject_Z (Z.of_nat i))%Q ∧
        get_white_coverage (path_join dir f) wc = (Ok c, wc).
Proof.
  intros Hz Hlo Hhi Hrun.
  apply get_coverage_inv in Hrun
    as (pfx & sh & w1 & dir & wc & files & Happly & Hcap & Hdir & Hloop & _).
  exists pfx, sh, w1, dir, wc, files. do 3 (split; [done|]).
  apply coverage_loop_inv in Hloop as (_ & new & -> & Hlen & Hnew).
  split; [done|]. intros i f Hf.
  destruct (Hnew i f Hf) as (c & Hi & Hc).
  exists (frame_after i (resolve_frame sf (playback_min (scene w)))), c.
  split; [done|]. split; [|done].
  assert (i < length files)%nat by (apply lookup_lt_is_Some; eauto).
  simpl in Hhi. rewrite (frame_after_integer i _ z Hz Hlo) by lia.
  by rewrite Hz, inject_Z_plus.
Qed.

(** *** The temporary directory *)

Lemma string_app_assoc (a b c : string) : (a +:+ b) +:+ c = a +:+ (b +:+ c).
Proof.
  induction a as [|x a IH]; [done|].
  change (String x ((a +:+ b) +:+ c) = String x (a +:+ (b +:+ c))).
  by rewrite IH.
Qed.

Lemma prefix_spec (a b : string) :
  String.prefix a b = true ↔ ∃ c, b = a +:+ c.
Proof.
  revert b. induction a as [|x a IH]; intros b; simpl.
  - split; [eauto | by destruct b].
  - destruct b as [|y b]; simpl.
    + split; [done | by intros [c ?]].
    + destruct (ascii_dec x y) as [->|Hne].
      * rewrite IH. split; intros [c Hc]; exists c.
        -- change (String y b = String y (a +:+ c)). by rewrite Hc.
        -- change (String y b = String y (a +:+ c)) in Hc. by injection Hc.
      * split; [done|]. intros [c Hc].
        change (String y b = String x (a +:+ c)) in Hc. by injection Hc.
Qed.

(** What lies inside a directory of the tree lies inside the tree. *)
Lemma inside_trans (d p q : string) :
  inside d p = true → inside p q = true → inside d q = true.
Proof.
  unfold inside. intros [Hp%bool_decide_eq_true|Hp]%orb_prop; [by subst|].
  intros [Hq%bool_decide_eq_true|Hq]%orb_prop; [subst; by rewrite Hp, orb_true_r|].
  apply orb_true_intro. right.
  apply prefix_spec in Hp as [x ->]. apply prefix_spec in Hq as [y ->].
  apply prefix_spec.
  destruct (ends_with_slash (_ +:+ x)).
  - exists (x +:+ y). by rewrite string_app_assoc.
  - exists (x +:+ "/" +:+ y). by rewrite !string_app_assoc.
Qed.

Lemma remove_tree_outside d busy (f : gmap string FsEntry) p :
  inside d p = false → remove_tree d busy f !! p = f !! p.
Proof.
  intros H. unfold remove_tree. rewrite map_lookup_imap.
  destruct (f !! p); simpl; [by rewrite H | done].
Qed.

Lemma remove_tree_gone d busy (f : gmap string FsEntry) p :
  inside d p = true → stays f busy p = false → remove_tree d busy f !! p = None.
Proof.
  intros H Hs. unfold remove_tree. rewrite map_lookup_imap.
  destruct (f !! p); simpl; [by rewrite H, Hs | done].
Qed.

Lemma remove_tree_stays d busy (f : gmap string FsEntry) p :
  stays f busy p = true → is_Some (f !! p) → is_Some (remove_tree d busy f !! p).
Proof.
  intros Hs [e He]. unfold remove_tree. rewrite map_lookup_imap, He. simpl.
  destruct (negb (inside d p)); [eauto|]. rewrite Hs. eauto.
Qed.

(** Nothing stays of a tree that holds no busy path. *)
Lemma stays_free (f : gmap string FsEntry) (busy : gset string) d p :
  (∀ q, q ∈ busy → inside d q = false) →
  inside d p = true → stays f busy p = false.
Proof.
  intros Hfree Hp. apply bool_decide_eq_false. intros (q & Hq & _ & Hin).
  specialize (Hfree q Hq). by rewrite (inside_trans d p q Hp Hin) in Hfree.
Qed.

(** Up to the capture, [get_coverage] changes nothing but the scene: the
    directory it hands to [rmtree] is the one [capture_frames] made. *)
Lemma get_coverage_capture_world camera sf ef (w w1 wc : World) pfx sh dir :
  apply_pfxtoon (Some (shapes_of Mesh (scene w))) w = (Ok (pfx, sh), w1) →
  capture_frames capture camera sf ef
    (with_scene (override_scene (scene w1)) w1) = (Ok dir, wc) →
  dir = temp_directory w ∧ fs w !! temp_directory w = None ∧
  ∃ o, capture o (ready_world (with_scene (override_scene (scene w1)) w))
       = (Ok tt, wc).
Proof.
  intros [Hw1 _]%apply_pfxtoon_frame Hcap.
  rewrite Hw1, with_scene_with_scene, scene_with_scene in Hcap.
  apply capture_frames_inv in Hcap as (-> & Hnone & o & Hrun).
  split; [done|]. split; [done|]. by exists o.
Qed.

(** C7: whenever [get_coverage] returns, it has handed the directory that
    [capture_frames] created, and that the capture helper wrote to, to
    [rmtree]: the directory was not there before the call; of what the
    helper left in it, everything that the operating system lets go is
    gone, what it holds back is still there, and the call returns all the
    same; what lies outside the directory is as the helper left it. *)
Theorem get_coverage_temp_cleanup camera sf ef delete_pfx
    (w w' : World) data :
  get_coverage capture camera sf ef delete_pfx w = (Ok data, w') →
  ∃ w2 wc files,
    capture_frames capture (Some (resolve_camera camera))
      (Some (resolve_frame sf (playback_min (scene w))))
      (Some (resolve_frame ef (playback_max (scene w)))) w2
    = (Ok (temp_directory w), wc) ∧
    fs w !! temp_directory w = None ∧
    fs wc !! temp_directory w = Some (Dir files) ∧
    (∀ p, inside (temp_directory w) p = true →
          stays (fs wc) (fs_busy wc) p = false → fs w' !! p = None) ∧
    (∀ p, stays (fs wc) (fs_busy wc) p = true → is_Some (fs wc !! p) →
          is_Some (fs w' !! p)) ∧
    (∀ p, inside (temp_directory w) p = false → fs w' !! p = fs wc !! p).
Proof.
  intros Hrun.
  apply get_coverage_inv in Hrun
    as (pfx & sh & w1 & dir & wc & files & Happly & Hcap & Hdir & Hloop & _ & ->).
  destruct (get_coverage_capture_world _ _ _ _ _ _ _ _ _ Happly Hcap)
    as (-> & Hnone & _).
  eexists _, wc, files. split; [exact Hcap|]. split; [done|]. split; [done|].
  cbn [fs with_scene with_fs]. split; [|split].
  - intros p Hp Hs. by apply remove_tree_gone.
  - intros p Hs Hp. by apply remove_tree_stays.
  - intros p Hp. by apply remove_tree_outside.
Qed.

(** X6: when the capture helper does not change what the operating system
    holds back, and nothing inside the temporary directory is held back,
    then whenever [get_coverage] returns, the temporary directory, which
    did not exist before the call, is gone again together with everything
    inside it. *)
Theorem get_coverage_removes_directory camera sf ef delete_pfx
    (w w' : World) data :
  (∀ o w0, fs_busy (capture o w0).2 = fs_busy w0) →
  (∀ q, q ∈ fs_busy w → inside (temp_directory w) q = false) →
  get_coverage capture camera sf ef delete_pfx w = (Ok data, w') →
  fs w !! temp_directory w = None ∧
  ∀ p, inside (temp_directory w) p = true → fs w' !! p = None.
Proof.
  intros Hkeep Hfree Hrun.
  apply get_coverage_inv in Hrun
    as (pfx & sh & w1 & dir & wc & files & Happly & Hcap & Hdir & Hloop & _ & ->).
  destruct (get_coverage_capture_world _ _ _ _ _ _ _ _ _ Happly Hcap)
    as (-> & Hnone & o & Hrun).
  split; [done|]. intros p Hp. cbn [fs with_scene with_fs].
  apply remove_tree_gone; [done|].
  apply (stays_free _ _ (temp_directory w)); [|done].
  pose proof (Hkeep o (ready_world (with_scene (override_scene (scene w1)) w)))
    as Hbusy.
  rewrite Hrun in Hbusy. simpl in Hbusy. by rewrite Hbusy.
Qed.

(** *** The nodes of the render layer and the pfx *)

(** The identifiers of the handles are new. *)
Lemma override_handles_new (s : Scene) (h : Handle) :
  h ∈ override_handles s → (fresh_id s ≤ handle_id h)%nat.
Proof.
  unfold override_handles. rewrite !elem_of_cons, elem_of_nil.
  intros [->|[->|[->|[]]]]; simpl; [lia..|].
  destruct (shaded_scene_lookup s) as [_ Hn].
  apply with_render_setup_old in Hn.
  assert (fresh_id s < fresh_id (with_render_setup (shaded_scene s)))%nat
    by (apply fresh_id_above; eauto).
  lia.
Qed.

Lemma foldl_remove_subseteq (hs : list Handle) (s : Scene) :
  nodes (foldl (λ s h, remove_node (handle_id h) s) s hs) ⊆ nodes s.
Proof.
  revert s. induction hs as [|h hs IH]; intros s; simpl; [done|].
  etrans; [apply IH | apply remove_node_subseteq].
Qed.

(** Once the nodes of a list of handles have been deleted one after the
    other, none of them is there. *)
Lemma foldl_remove_gone (hs : list Handle) (s : Scene) (h : Handle) :
  h ∈ hs →
  nodes (foldl (λ s h, remove_node (handle_id h) s) s hs) !! handle_id h = None.
Proof.
  revert s. induction hs as [|h' hs IH]; intros s; [by rewrite elem_of_nil|].
  rewrite elem_of_cons. intros [->|Hin]; simpl; [|by apply IH].
  eapply lookup_weaken_None; [apply remove_node_gone | apply foldl_remove_subseteq].
Qed.

(** A transform that is none of them is still there. *)
Lemma foldl_remove_keeps (hs : list Handle) (s : Scene) (t : nat) (nd : Node) :
  nodes s !! t = Some nd → node_kind nd = Transform →
  (∀ h, h ∈ hs → handle_id h ≠ t) →
  nodes (foldl (λ s h, remove_node (handle_id h) s) s hs) !! t = Some nd.
Proof.
  revert s. induction hs as [|h hs IH]; intros s Ht Hkind Hne; simpl; [done|].
  apply IH; [|done|].
  - apply nodes_remove_node. split; [done|]. unfold goes_with. rewrite Hkind.
    rewrite bool_decide_eq_false_2; [done|].
    intros ->. by apply (Hne h); [left|].
  - intros h' Hin. apply Hne. by right.
Qed.

(** C6: whenever [get_coverage] returns, the shader, the shading group
    and the render layer that [create_material_override] returned in this
    run are gone from the scene; the pfx transform is gone when
    [delete_pfx] is set and, as far as the capture helper leaves the nodes
    alone, still there when it is not. *)
Theorem get_coverage_deletes_nodes camera sf ef delete_pfx
    (w w' : World) data :
  get_coverage capture camera sf ef delete_pfx w = (Ok data, w') →
  ∃ pfx sh w1 shader shading_group layer w2,
    apply_pfxtoon (Some (shapes_of Mesh (scene w))) w
    = (Ok (Some pfx, sh), w1) ∧
    create_material_override w1
    = (Ok [PyNode shader; PyNode shading_group; LayerObject layer], w2) ∧
    nodes (scene w') !! shader = None ∧
    nodes (scene w') !! shading_group = None ∧
    nodes (scene w') !! layer = None ∧
    (delete_pfx = true → nodes (scene w') !! pfx = None) ∧
    (delete_pfx = false →
     (∀ o w0, nodes (scene (capture o w0).2) = nodes (scene w0)) →
     nodes (scene w') !! pfx = Some (pfx_transform_node pfx)).
Proof.
  intros Hrun.
  apply get_coverage_inv in Hrun
    as (pfx & sh & w1 & dir & wc & files & Happly & Hcap & Hdir & Hloop & _ & ->).
  destruct (apply_pfxtoon_frame _ _ _ _ _ Happly) as (_ & t & -> & Ht).
  eexists t, sh, w1, _, _, _, _. split; [exact Happly|].
  split; [apply create_material_override_run|].
  cbn [scene with_scene]. unfold cleaned_scene.
  set (hs := override_handles (scene w1)).
  set (s' := foldl _ (scene wc) hs).
  assert (∀ h, h ∈ hs → nodes s' !! handle_id h = None) as Hgone
    by (intros h Hh; by apply foldl_remove_gone).
  assert (∀ h, h ∈ hs →
            nodes (if delete_pfx then remove_node t s' else s') !! handle_id h
            = None) as Hgone'.
  { intros h Hh. destruct delete_pfx; [|by apply Hgone].
    eapply lookup_weaken_None; [by apply Hgone | apply remove_node_subseteq]. }
  split; [apply (Hgone' (PyNode _)); subst hs; unfold override_handles; set_solver|].
  split; [apply (Hgone' (PyNode _)); subst hs; unfold override_handles; set_solver|].
  split; [apply (Hgone' (LayerObject _)); subst hs; unfold override_handles;
          set_solver|].
  split.
  - intros ->. apply remove_node_gone.
  - intros -> Hkeep.
    apply capture_frames_inv in Hcap as (_ & _ & o & Hcap).
    pose proof (Hkeep o (ready_world (with_scene (override_scene (scene w1)) w1)))
      as Hnodes.
    rewrite Hcap in Hnodes. cbn [snd] in Hnodes.
    change (nodes (scene (ready_world (with_scene (override_scene (scene w1)) w1))))
      with (nodes (override_scene (scene w1))) in Hnodes.
    apply foldl_remove_keeps; [|done|].
    + rewrite Hnodes. by apply override_scene_old.
    + intros h Hh Heq. apply override_handles_new in Hh.
      assert (t < fresh_id (scene w1))%nat by (apply fresh_id_above; eauto). lia.
Qed.

(** X8: an argument that is given but falsy counts as not given: a start
    or end frame equal to 0 is replaced by the playback bound, and an
    empty camera name by "persp". *)
Theorem get_coverage_falsy_arguments camera sf ef delete_pfx (q : Q) (w : World) :
  (q == 0)%Q →
  get_coverage capture camera (Some q) ef delete_pfx w
  = get_coverage capture camera None ef delete_pfx w ∧
  get_coverage capture camera sf (Some q) delete_pfx w
  = get_coverage capture camera sf None delete_pfx w ∧
  get_coverage capture (Some "") sf ef delete_pfx w
  = get_coverage capture None sf ef delete_pfx w.
Proof.
  intros Hq%Qeq_bool_iff. rewrite !get_coverage_eval.
  unfold resolve_frame, resolve_camera, falsy_num. rewrite Hq. done.
Qed.

End GetCoverage.

Lemma demo_run_returns (delete_pfx : bool) :
  get_coverage (write_frames two_frames) None None None delete_pfx demo_world
  = (Ok demo_data, (demo_run delete_pfx).2).
Proof. destruct delete_pfx; vm_compute; reflexivity. Qed.

Lemma held_run_returns :
  get_coverage (write_frames two_frames) None None None true held_world
  = (Ok demo_data, held_run.2).
Proof. vm_compute; reflexivity. Qed.


Lemma get_coverage_pairs_witness :
  ∃ pfx sh w1 dir wc files,
    apply_pfxtoon (Some (shapes_of Mesh (scene demo_world))) demo_world
    = (Ok (pfx, sh), w1) ∧
    capture_frames (write_frames two_frames) (Some (resolve_camera None))
      (Some (resolve_frame None (playback_min (scene demo_world))))
      (Some (resolve_frame None (playback_max (scene demo_world))))
      (with_scene (override_scene (scene w1)) w1) = (Ok dir, wc) ∧
    fs wc !! dir = Some (Dir files) ∧
    length demo_data = length files ∧
    ∀ i f, files !! i = Some f →
      ∃ fr c, demo_data !! i = Some (fr, c) ∧
        (fr == resolve_frame None (playback_min (scene demo_world))
               + inject_Z (Z.of_nat i))%Q ∧
        get_white_coverage (path_join dir f) wc = (Ok c, wc).
Proof.
  apply (get_coverage_pairs (write_frames two_frames) None None None true
           demo_world (demo_run true).2 demo_data 1).
  - reflexivity.
  - reflexivity.
  - reflexivity.
  - apply demo_run_returns.
Defined.

Lemma get_coverage_temp_cleanup_witness :
  ∃ w2 wc files,
    capture_frames (write_frames two_frames) (Some (resolve_camera None))
      (Some (resolve_frame None (playback_min (scene held_world))))
      (Some (resolve_frame None (playback_max (scene held_world)))) w2
    = (Ok (temp_directory held_world), wc) ∧
    fs held_world !! temp_directory held_world = None ∧
    fs wc !! temp_directory held_world = Some (Dir files) ∧
    (∀ p, inside (temp_directory held_world) p = true →
          stays (fs wc) (fs_busy wc) p = false → fs held_run.2 !! p = None) ∧
    (∀ p, stays (fs wc) (fs_busy wc) p = true → is_Some (fs wc !! p) →
          is_Some (fs held_run.2 !! p)) ∧
    (∀ p, inside (temp_directory held_world) p = false →
          fs held_run.2 !! p = fs wc !! p).
Proof.
  apply (get_coverage_temp_cleanup (write_frames two_frames) None None None true
           held_world held_run.2 demo_data).
  apply held_run_returns.
Defined.

Lemma get_coverage_removes_directory_witness :
  fs demo_world !! temp_directory demo_world = None ∧
  ∀ p, inside (temp_directory demo_world) p = true →
       fs (demo_run true).2 !! p = None.
Proof.
  apply (get_coverage_removes_directory (write_frames two_frames)
           None None None true demo_world (demo_run true).2 demo_data).
  - reflexivity.
  - intros q Hq. by apply elem_of_empty in Hq.
  - apply demo_run_returns.
Defined.

Lemma get_coverage_deletes_nodes_witness :
  ∃ pfx sh w1 shader shading_group layer w2,
    apply_pfxtoon (Some (shapes_of Mesh (scene demo_world))) demo_world
    = (Ok (Some pfx, sh), w1) ∧
    create_material_override w1
    = (Ok [PyNode shader; PyNode shading_group; LayerObject layer], w2) ∧
    nodes (scene (demo_run false).2) !! shader = None ∧
    nodes (scene (demo_run false).2) !! shading_group = None ∧
    nodes (scene (demo_run false).2) !! layer = None ∧
    (false = true → nodes (scene (demo_run false).2) !! pfx = None) ∧
    (false = false →
     (∀ o w0, nodes (scene (write_frames two_frames o w0).2) = nodes (scene w0)) →
     nodes (scene (demo_run false).2) !! pfx = Some (pfx_transform_node pfx)).
Proof.
  apply (get_coverage_deletes_nodes (write_frames two_frames)
           None None None false demo_world (demo_run false).2 demo_data).
  apply demo_run_returns.
Defined.

Lemma get_coverage_falsy_arguments_witness :
  get_coverage (write_frames two_frames) None (Some 0%Q) None true demo_world
  = get_coverage (write_frames two_frames) None None None true demo_world ∧
  get_coverage (write_frames two_frames) None None (Some 0%Q) true demo_world
  = get_coverage (write_frames two_frames) None None None true demo_world ∧
  get_coverage (write_frames two_frames) (Some "") None None true demo_world
  = get_coverage (write_frames two_frames) None None None true demo_world.
Proof.
  apply (get_coverage_falsy_arguments (write_frames two_frames)
           None None None true 0%Q demo_world).
  reflexivity.
Defined.

(** ** More on [apply_pfxtoon] *)

Section ApplyTwice.

(** On a well-formed scene, a call that returns went through the deletion
    of the earlier pfx and the creation of the new one. *)
Lemma apply_pfxtoon_wf_inv meshes (w w' : World) r :
  WF (scene w) →
  apply_pfxtoon meshes w = (Ok r, w') →
  ∃ s', previous_deleted (shapes_of PfxToon (scene w)) (scene w) s' ∧
        r = (Some (fresh_id (scene w)), S (fresh_id (scene w))) ∧
        w' = with_scene (created_pfx (effective_meshes meshes (scene w)) s') w.
Proof.
  intros Hwf Hrun.
  destruct (delete_previous_pfx_run w Hwf) as (s' & Hdel & Hpost).
  apply apply_pfxtoon_inv in Hrun as (w0 & Hdel' & -> & ->).
  rewrite Hdel in Hdel'. injection Hdel' as <-.
  exists s'. split; [done|].
  destruct Hpost as (_ & _ & Hfresh & _). simpl. by rewrite Hfresh.
Qed.

Lemma WF_created_pfx (ms : list nat) (s : Scene) : WF s → WF (created_pfx ms s).
Proof.
  intros Hwf k nd Hk. unfold parent_ok.
  apply created_pfx_lookup in Hk as [[_ ->]|[[_ ->]|Hk]].
  - simpl. rewrite lookup_insert_ne by lia. by rewrite lookup_insert_eq.
  - done.
  - destruct (node_kind nd) as [|ty p| | | | |] eqn:Hkind; try done.
    destruct (WF_parent _ _ _ _ _ Hwf Hk Hkind) as (ndp & Hp & Hkp).
    rewrite (created_pfx_old ms s p ndp Hp). by apply bool_decide_eq_true.
Qed.

(** The scene that [apply_pfxtoon] leaves is well-formed when the scene it
    started from is. *)
Lemma apply_pfxtoon_keeps_wf meshes (w w' : World) r :
  wf_scene (scene w) = true →
  apply_pfxtoon meshes w = (Ok r, w') →
  wf_scene (scene w') = true.
Proof.
  intros Hwf%wf_scene_WF Hrun.
  apply apply_pfxtoon_wf_inv in Hrun as (s' & Hpost & _ & ->); [|done].
  apply wf_scene_WF. simpl. apply WF_created_pfx. by destruct Hpost.
Qed.

(** X10: a second call undoes the first: on a well-formed scene, when two
    calls in a row return, the transform and the shape that the first
    call created are gone, and the shape of the second call is there,
    tagged, under the transform of the second call. *)
Theorem apply_pfxtoon_twice m1 m2 (w w1 w2 : World) t1 sh1 t2 sh2 :
  wf_scene (scene w) = true →
  apply_pfxtoon m1 w = (Ok (Some t1, sh1), w1) →
  apply_pfxtoon m2 w1 = (Ok (Some t2, sh2), w2) →
  nodes (scene w2) !! t1 = None ∧ nodes (scene w2) !! sh1 = None ∧
  ∃ nd, nodes (scene w2) !! sh2 = Some nd ∧ tagged_pfx nd = true ∧
        node_kind nd = Shape PfxToon t2.
Proof.
  intros Hwf Hrun1 Hrun2.
  pose proof (apply_pfxtoon_keeps_wf _ _ _ _ Hwf Hrun1) as Hwf1%wf_scene_WF.
  apply wf_scene_WF in Hwf.
  apply apply_pfxtoon_wf_inv in Hrun1 as (s1 & Hpost1 & [= -> ->] & ->); [|done].
  apply apply_pfxtoon_wf_inv in Hrun2 as (s2 & Hpost2 & [= -> ->] & ->); [|done].
  destruct Hpost1 as (_ & _ & Hfresh1 & _).
  destruct Hpost2 as (_ & _ & Hfresh2 & Hgone & _).
  rewrite scene_with_scene in *. rewrite fresh_id_created_pfx in Hfresh2.
  set (ms1 := effective_meshes m1 (scene w)) in *.
  destruct (Hgone (S (fresh_id (scene w))) (pfx_shape_node (fresh_id (scene w)))
              PfxToon (fresh_id (scene w))) as [Hsh Ht].
  { apply shapes_of_spec. exists (pfx_shape_node (fresh_id (scene w))).
    split; [|done]. rewrite <- Hfresh1. apply created_pfx_shape. }
  { rewrite <- Hfresh1. apply created_pfx_shape. }
  { change (tag ∈ ({[tag]} : gset string)). set_solver. }
  { done. }
  set (ms2 := effective_meshes m2 _) in *.
  assert (∀ k, (k < fresh_id s2)%nat → nodes s2 !! k = None →
               nodes (created_pfx ms2 s2) !! k = None) as Hold.
  { intros k Hk Hnone. simpl. by rewrite !lookup_insert_ne by lia. }
  rewrite fresh_id_created_pfx. rewrite Hfresh1 in *.
  split; [apply Hold; [lia | done]|]. split; [apply Hold; [lia | done]|].
  exists (pfx_shape_node (fresh_id s2)).
  rewrite <- Hfresh2. split; [apply created_pfx_shape|]. by split.
Qed.

End ApplyTwice.

Lemma apply_pfxtoon_twice_witness :
  nodes (scene (apply_pfxtoon None (apply_pfxtoon None demo_world).2).2) !! 4%nat
  = None ∧
  nodes (scene (apply_pfxtoon None (apply_pfxtoon None demo_world).2).2) !! 5%nat
  = None ∧
  ∃ nd, nodes (scene (apply_pfxtoon None (apply_pfxtoon None demo_world).2).2)
          !! 7%nat = Some nd ∧
        tagged_pfx nd = true ∧ node_kind nd = Shape PfxToon 6.
Proof.
  apply (apply_pfxtoon_twice None None demo_world
           (apply_pfxtoon None demo_world).2
           (apply_pfxtoon None (apply_pfxtoon None demo_world).2).2
           4%nat 5%nat 6%nat 7%nat); vm_compute; reflexivity.
Defined.
